(** * ts-switch-case: a shallow embedding of [src/switchCase.ts] and
    [src/utils.ts], and the properties of the dispatcher and of the cycle
    guard.

    The embedding follows the TypeScript source statement by statement.
    JavaScript values live in a small value type with an object store;
    whatever belongs to the host language rather than to the library (calling
    a user function, properties found on a prototype, [JSON.stringify],
    [String] of an object) is a field of a [host] record, and every theorem
    holds for every host. *)

From stdpp Require Import base strings list gmap pretty relations sorting.
From Stdlib Require Import ZArith Lia.

Open Scope Z_scope.

(** ** JavaScript values *)

Module Js.

Definition loc := positive.
Bind Scope positive_scope with loc.

(** Numbers are the integers (no NaN, no fractions); symbols are left out.
    A function value is an opaque identifier interpreted by the host; an
    object value is a reference into the store. *)
Inductive value : Type :=
  | VUndefined
  | VNull
  | VBool (b : bool)
  | VNum (n : Z)
  | VStr (s : string)
  | VFun (f : nat)
  | VRef (l : loc).

#[global] Instance value_eq_dec : EqDecision value.
Proof. solve_decision. Defined.

(** Own enumerable properties of an object, in creation order, or the
    elements of an array. *)
Inductive object : Type :=
  | ORecord (props : list (string * value))
  | OArray (elems : list value).

(** What a [throw] carries: [new Error(msg)], a [TypeError] of the
    engine, or anything a user function raised. *)
Inductive exn : Type :=
  | Error (msg : string)
  | TypeError
  | Raised (v : value).

Inductive completion (A : Type) : Type :=
  | Normal (a : A)
  | Throw (e : exn).
Arguments Normal {A} a.
Arguments Throw {A} e.

#[global] Instance completion_bind : MBind completion :=
  fun A B (k : A -> completion B) (c : completion A) =>
    match c with
    | Normal a => k a
    | Throw e => Throw e
    end.

#[global] Instance completion_fmap : FMap completion :=
  fun A B (f : A -> B) (c : completion A) =>
    match c with
    | Normal a => Normal (f a)
    | Throw e => Throw e
    end.

(** The host environment. *)
Record host : Type := Host {
  (* the object store *)
  heap : gmap loc object;
  (* [f.call(this, ...args)] for the function value [VFun f]; user
     callbacks are pure functions of their arguments *)
  call : nat -> value -> list value -> completion value;
  (* a property read that no own property of a stored object answers:
     the prototype chain, and the wrappers of primitives
     (['abc'.match] is [String.prototype.match]) *)
  inherited : value -> string -> value;
  (* [String(v)] for a function or an object [v] *)
  object_to_string : value -> string;
  (* [JSON.stringify(v)]: a string or [undefined], or a throw (circular
     structure) *)
  JSON_stringify : value -> completion value
}.

(** [typeof v] *)
Definition typeof (v : value) : string :=
  match v with
  | VUndefined => "undefined"
  | VNull => "object"
  | VBool _ => "boolean"
  | VNum _ => "number"
  | VStr _ => "string"
  | VFun _ => "function"
  | VRef _ => "object"
  end.

Definition is_function (v : value) : bool := bool_decide (typeof v = "function").
Definition is_object (v : value) : bool := bool_decide (typeof v = "object").

(** [a === b] *)
Definition strict_eq (a b : value) : bool := bool_decide (a = b).

(** Truthiness, as [if (v)] tests it. *)
Definition ToBoolean (v : value) : bool :=
  match v with
  | VUndefined | VNull => false
  | VBool b => b
  | VNum n => negb (n =? 0)
  | VStr s => negb (bool_decide (s = ""))
  | VFun _ | VRef _ => true
  end.

(** An array index is a canonical decimal numeral below 2^32 - 1; such
    keys are enumerated first, in ascending order. *)
Definition digit_of (a : Ascii.ascii) : option N :=
  let n := Ascii.N_of_ascii a in
  if ((48 <=? n) && (n <=? 57))%N then Some (n - 48)%N else None.

Fixpoint parse_digits (acc : N) (s : string) : option N :=
  match s with
  | EmptyString => Some acc
  | String a s' =>
      match digit_of a with
      | Some d => parse_digits (10 * acc + d)%N s'
      | None => None
      end
  end.

Definition array_index (k : string) : option N :=
  match k with
  | EmptyString => None
  | _ =>
      match parse_digits 0%N k with
      | Some n =>
          if bool_decide (pretty n = k) && (n <? 4294967295)%N
          then Some n else None
      | None => None
      end
  end.

Fixpoint lookup_prop (k : string) (ps : list (string * value)) : option value :=
  match ps with
  | [] => None
  | (k', v) :: ps' => if bool_decide (k' = k) then Some v else lookup_prop k ps'
  end.

Definition own_property (o : object) (k : string) : option value :=
  match o with
  | ORecord ps => lookup_prop k ps
  | OArray es =>
      if bool_decide (k = "length") then Some (VNum (Z.of_nat (length es)))
      else match array_index k with
           | Some i => es !! N.to_nat i
           | None => None
           end
  end.

(** Insertion of an index key into the ascending run of index keys. *)
Fixpoint insert_index (x : N * string) (l : list (N * string)) : list (N * string) :=
  match l with
  | [] => [x]
  | y :: l' => if (x.1 <? y.1)%N then x :: l else y :: insert_index x l'
  end.

Definition sort_indices (l : list (N * string)) : list (N * string) :=
  foldr insert_index [] l.

Definition index_keys (ks : list string) : list (N * string) :=
  omap (fun k => match array_index k with
                 | Some n => Some (n, k)
                 | None => None
                 end) ks.

Definition name_keys (ks : list string) : list string :=
  filter (fun k => array_index k = None) ks.

(** Own property keys in the order of [Object.keys] and [for...in]:
    array indices ascending, then the other keys in creation order. *)
Definition own_keys (o : object) : list string :=
  match o with
  | ORecord ps =>
      let ks := ps.*1 in
      (sort_indices (index_keys ks)).*2 ++ name_keys ks
  | OArray es => (fun i => pretty (N.of_nat i)) <$> seq 0 (length es)
  end.

Section WithHost.
Context (E : host).

Definition Array_isArray (v : value) : bool :=
  match v with
  | VRef l => match heap E !! l with
              | Some (OArray _) => true
              | _ => false
              end
  | _ => false
  end.

(** [String(v)] *)
Definition String_ (v : value) : string :=
  match v with
  | VUndefined => "undefined"
  | VNull => "null"
  | VBool true => "true"
  | VBool false => "false"
  | VNum n => pretty n
  | VStr s => s
  | VFun _ | VRef _ => object_to_string E v
  end.

(** [v[k]] *)
Definition Get (v : value) (k : string) : completion value :=
  match v with
  | VUndefined | VNull => Throw TypeError
  | VRef l =>
      match heap E !! l ≫= (fun o => own_property o k) with
      | Some x => Normal x
      | None => Normal (inherited E v k)
      end
  | _ => Normal (inherited E v k)
  end.

(** [f.call(this, ...args)], a [TypeError] when [f] is not callable. *)
Definition Call (f this : value) (args : list value) : completion value :=
  match f with
  | VFun n => call E n this args
  | _ => Throw TypeError
  end.

(** [Object.keys(v)] for an object value. *)
Definition Object_keys (v : value) : list string :=
  match v with
  | VRef l => match heap E !! l with
              | Some o => own_keys o
              | None => []
              end
  | _ => []
  end.

(** The elements a [for...of] over an array visits. *)
Definition elements_of (v : value) : list value :=
  match v with
  | VRef l => match heap E !! l with
              | Some (OArray es) => es
              | _ => []
              end
  | _ => []
  end.

End WithHost.

End Js.

(** ** [src/switchCase.ts] *)

Module SwitchCase.
Import Js.

(** An element of the builder's [cases] array, [{ match, handler }]. *)
Record entry : Type := Entry { match_ : value; handler : value }.

(** The variables the builder's methods close over: the subject [value],
    the [cases] array and [defaultFn]. *)
Record builder : Type := Builder {
  subject : value;
  cases : list entry;
  defaultFn : value
}.

(** The four branches of the implementation. *)
Inductive mode : Type :=
  | Chainable
  | Sequence
  | ObjectMap
  | Discriminator.

(** What [switchCase] returns: a result, or the builder. *)
Inductive result : Type :=
  | Value (v : value)
  | Chain (b : builder).

Section WithHost.
Context (E : host).

(** [throw new Error(`No matching case for value: ${JSON.stringify(value)}`)] *)
Definition throw_no_match (value : value) : completion Js.value :=
  j ← JSON_stringify E value;
  Throw (Error ("No matching case for value: " +:+ String_ E j)).

(** *** The chainable builder (lines 56-90) *)

(** [case(match, handler)]: [cases.push({ match, handler }); return this] *)
Definition case_ (m h : value) (b : builder) : builder :=
  {| subject := subject b;
     cases := cases b ++ [Entry m h];
     defaultFn := defaultFn b |}.

(** [default(handler)]: [defaultFn = handler; return this] *)
Definition default (h : value) (b : builder) : builder :=
  {| subject := subject b; cases := cases b; defaultFn := h |}.

(** The [for] loop of [run], followed by [after]. *)
Fixpoint run_for (value : value) (cs : list entry)
    (after : completion Js.value) : completion Js.value :=
  match cs with
  | [] => after
  | Entry m h :: cs' =>
      isMatch ← (if is_function m then Call E m VUndefined [value]
                 else Normal (VBool (strict_eq m value)));
      if ToBoolean isMatch then
        if is_function h then Call E h VUndefined [value] else Normal h
      else run_for value cs' after
  end.

(** [run()], with the builder as it is left. *)
Definition run (b : builder) : completion value * builder :=
  (run_for (subject b) (cases b)
     (if ToBoolean (defaultFn b)
      then Call E (defaultFn b) VUndefined [subject b]
      else throw_no_match (subject b)),
   b).

(** [exhaustive()]: [return this.run()] *)
Definition exhaustive (b : builder) : completion value * builder :=
  run b.

(** *** Array-based cases (lines 92-108) *)

(** The [for (const { match, handler } of cases)] loop. *)
Fixpoint array_for (value : value) (elems : list Js.value)
    (after : completion Js.value) : completion Js.value :=
  match elems with
  | [] => after
  | e :: elems' =>
      m ← Get E e "match";
      h ← Get E e "handler";
      r ← Call E m VUndefined [value];
      if ToBoolean r then
        if is_function h then Call E h VUndefined [value] else Normal h
      else array_for value elems' after
  end.

Definition switchCase_array (value cases defaultFn : value) : completion Js.value :=
  array_for value (elements_of E cases)
    (if ToBoolean defaultFn then Call E defaultFn VUndefined [value]
     else throw_no_match value).

(** *** Object-based cases (lines 110-138) *)

(** The [for (const key of Object.keys(cases))] loop. *)
Fixpoint keys_for (value cases : value) (keys : list string)
    (after : completion Js.value) : completion Js.value :=
  match keys with
  | [] => after
  | key :: keys' =>
      c ← Get E cases key;
      if negb (is_function c) then
        m ← Get E c "match";
        isMatch ← (if is_function m then Call E m c [value]
                   else Normal (VBool (strict_eq m value)));
        if ToBoolean isMatch then
          h ← Get E c "handler";
          if is_function h then Call E h c [value] else Normal h
        else keys_for value cases keys' after
      else keys_for value cases keys' after
  end.

(** The part of the object branch after the literal lookup: the scan
    over the keys, the default handler, the throw. *)
Definition scan_object (value cases defaultFn : value) : completion Js.value :=
  keys_for value cases (Object_keys E cases)
    (if ToBoolean defaultFn then Call E defaultFn VUndefined [value]
     else throw_no_match value).

Definition switchCase_object (value cases defaultFn : value) : completion Js.value :=
  literalHandler ← Get E cases (String_ E value);
  if negb (strict_eq literalHandler VUndefined) then
    if is_function literalHandler then Call E literalHandler VUndefined []
    else Normal literalHandler
  else scan_object value cases defaultFn.

(** *** Discriminated unions (lines 140-158) *)

Definition switchCase_discriminated
    (value discriminator cases defaultHandler : value) : completion Js.value :=
  field ← Get E value (String_ E discriminator);
  let discriminatorValue := String_ E field in
  handlerOrValue ← Get E cases discriminatorValue;
  if negb (strict_eq handlerOrValue VUndefined) then
    if is_function handlerOrValue then Call E handlerOrValue VUndefined [value]
    else Normal handlerOrValue
  else if ToBoolean defaultHandler then Call E defaultHandler VUndefined [value]
  else Throw (Error ("No matching case for " +:+ String_ E discriminator
                       +:+ ": " +:+ discriminatorValue)).

(** *** The implementation signature (lines 46-159); an argument that
    is not passed is [undefined]. *)
Definition switchCase
    (value discriminatorOrCases casesOrDefault defaultHandler : value)
    : completion result :=
  if strict_eq discriminatorOrCases VUndefined then
    Normal (Chain (Builder value [] VUndefined))
  else if Array_isArray E discriminatorOrCases then
    Value <$> switchCase_array value discriminatorOrCases casesOrDefault
  else if is_object discriminatorOrCases then
    Value <$> switchCase_object value discriminatorOrCases casesOrDefault
  else
    Value <$> switchCase_discriminated value discriminatorOrCases
                casesOrDefault defaultHandler.

(** *** The branch a call takes, and the test each loop makes *)

(** A mapping: an object that is not an array. *)
Definition is_mapping (v : value) : bool :=
  match v with
  | VRef l => match heap E !! l with
              | Some (ORecord _) => true
              | _ => false
              end
  | _ => false
  end.

(** The guards of lines 56, 93 and 111, in their order. *)
Definition mode_of (discriminatorOrCases : value) : mode :=
  if strict_eq discriminatorOrCases VUndefined then Chainable
  else if Array_isArray E discriminatorOrCases then Sequence
  else if is_object discriminatorOrCases then ObjectMap
  else Discriminator.

(** [typeof handler === "function" ? handler(value) : handler], with
    the [this] of the call. *)
Definition resolve (h this value : value) : completion Js.value :=
  if is_function h then Call E h this [value] else Normal h.

(** The test of [run] on one entry (lines 74-76). *)
Definition entry_test (value : value) (e : entry) : completion bool :=
  isMatch ← (if is_function (match_ e) then Call E (match_ e) VUndefined [value]
             else Normal (VBool (strict_eq (match_ e) value)));
  Normal (ToBoolean isMatch).

(** The destructuring and the test of the array loop on one element
    (lines 97-98). *)
Definition element_test (value e : value) : completion bool :=
  m ← Get E e "match";
  _ ← Get E e "handler";
  r ← Call E m VUndefined [value];
  Normal (ToBoolean r).

(** The test of the key loop on one key (lines 123-127); a function
    entry is passed over. *)
Definition key_test (value cases : value) (key : string) : completion bool :=
  c ← Get E cases key;
  if negb (is_function c) then
    m ← Get E c "match";
    isMatch ← (if is_function m then Call E m c [value]
               else Normal (VBool (strict_eq m value)));
    Normal (ToBoolean isMatch)
  else Normal false.

(** What the key loop returns at a key whose test is truthy (line 128). *)
Definition key_result (value cases : value) (key : string) : completion Js.value :=
  c ← Get E cases key;
  h ← Get E c "handler";
  resolve h c value.

(** What every branch does once no case has matched (lines 82-85,
    103-107 and 133-137): the default handler if it is truthy, the throw
    otherwise. *)
Definition otherwise (defaultFn value : value) : completion Js.value :=
  if ToBoolean defaultFn then Call E defaultFn VUndefined [value]
  else throw_no_match value.

(** *** [assertUnreachable] (lines 161-164) *)

(** [throw new Error(`Unreachable case: ${value}`)] *)
Definition assertUnreachable (value : value) : completion Js.value :=
  Throw (Error ("Unreachable case: " +:+ String_ E value)).

End WithHost.

(** *** Chains of builder calls *)

(** A call of [case] or of [default] on the builder. *)
Inductive method : Type :=
  | Case (m h : value)
  | Default (h : value).

Definition invoke (b : builder) (c : method) : builder :=
  match c with
  | Case m h => case_ m h b
  | Default h => default h b
  end.

(** [b.c1(...).c2(...)...]: each call returns [this]. *)
Definition chain (b : builder) (cs : list method) : builder :=
  foldl invoke b cs.

(** The entries the [case] calls of a chain push, in their order. *)
Definition entries_of (cs : list method) : list entry :=
  omap (fun c => match c with
                 | Case m h => Some (Entry m h)
                 | Default _ => None
                 end) cs.

(** The handler of the last [default] call of a chain, [d] if there is
    none. *)
Definition last_default (d : value) (cs : list method) : value :=
  foldl (fun d c => match c with
                    | Case _ _ => d
                    | Default h => h
                    end) d cs.

End SwitchCase.

(** ** [src/utils.ts] *)

Module Utils.
Import Js.

(** The record [logCyclicError] writes to [console.error]; the timestamp
    is left out. *)
Record diagnostic : Type := Diagnostic {
  context : string;
  path : string;
  objectType : value
}.

(** What a call of [isCyclic] shares with its recursive calls: the
    [WeakSet] of objects [seen], passed by reference, and the console. *)
Record state : Type := State {
  seen : gset loc;
  console : list diagnostic
}.

(** What a call that returns [b] and leaves [st'] says about the visits
    [ls] it stands for: [false] when they are pairwise distinct and none
    was seen before, and then all of them are seen afterwards. *)
Definition visits_spec (ls : list loc) (st : state) (b : bool) (st' : state) : Prop :=
  if b then ~ (NoDup ls /\ forall l, l ∈ ls -> l ∉ seen st)
  else NoDup ls /\ (forall l, l ∈ ls -> l ∉ seen st) /\
       seen st' = seen st ∪ list_to_set ls.

(** A diagnostic is written once when the result is [true] and not at
    all when it is [false]. *)
Definition logs_once (st : state) (b : bool) (st' : state) : Prop :=
  if b then exists d, console st' = console st ++ [d]
  else console st' = console st.

Section WithHost.
Context (E : host).

(** [v?.k] *)
Definition optional_get (v : value) (k : string) : value :=
  match Get E v k with
  | Normal x => x
  | Throw _ => VUndefined
  end.

(** [path.join(" -> ")] *)
Fixpoint join (sep : string) (l : list string) : string :=
  match l with
  | [] => ""
  | [s] => s
  | s :: l' => s +:+ sep +:+ join sep l'
  end.

Definition logCyclicError (obj : value) (path : list string)
    (context : string) (st : state) : state :=
  let name := optional_get (optional_get obj "constructor") "name" in
  {| seen := seen st;
     console := console st ++
       [Diagnostic context (join " -> " path)
          (if ToBoolean name then name else VStr "unknown")] |}.

(** The [for (const key in obj)] loop, over the recursive call [rec]:
    the keys are the own enumerable ones (no enumerable property is
    inherited), and [obj[key]] of an object never throws. *)
Fixpoint for_in (rec : value -> list string -> state -> option (bool * state))
    (obj : value) (path : list string) (keys : list string) (st : state)
    : option (bool * state) :=
  match keys with
  | [] => Some (false, st)
  | key :: keys' =>
      match rec (optional_get obj key) (path ++ [key]) st with
      | Some (true, st') => Some (true, st')
      | Some (false, st') => for_in rec obj path keys' st'
      | None => None
      end
  end.

(** [isCyclic(obj, seen, path)]; [obj && typeof obj === "object"] holds
    of the object references and of nothing else.  [fuel] bounds the depth
    of the recursion, [None] is the bound reached. *)
Fixpoint isCyclic_fuel (fuel : nat) (obj : value) (path : list string)
    (st : state) : option (bool * state) :=
  match fuel with
  | O => None
  | S fuel' =>
      match obj with
      | VRef l =>
          if bool_decide (l ∈ seen st) then
            Some (true, logCyclicError obj path "Cycle detected" st)
          else
            for_in (isCyclic_fuel fuel') obj path (Object_keys E obj)
              {| seen := {[l]} ∪ seen st; console := console st |}
      | _ => Some (false, st)
      end
  end.

(** [isCyclic(obj)] with the defaults [seen = new WeakSet()] and
    [path = ["root"]]; the depth of the recursion never exceeds the
    number of stored objects (see [isCyclic_total]). *)
Definition isCyclic (obj : value) : option (bool * state) :=
  isCyclic_fuel (S (size (heap E))) obj ["root"] (State ∅ []).

(** The stored objects not yet seen: the recursion enters each of them
    at most once. *)
Definition unseen (st : state) : gset loc := dom (heap E) ∖ seen st.

(** The objects the traversal would enter from [obj] if nothing stopped
    it, in its order and down to depth [fuel]: an object occurs once for
    each path of properties that leads to it. *)
Fixpoint visits (fuel : nat) (obj : value) : list loc :=
  match fuel with
  | O => []
  | S fuel' =>
      match obj with
      | VRef l =>
          l :: concat ((fun key => visits fuel' (optional_get obj key))
                         <$> Object_keys E obj)
      | _ => []
      end
  end.

(** [obj[k1][k2]...]: the value at the end of a path of keys, with
    [undefined] for a read of [undefined] or [null]. *)
Definition follow (obj : value) (ks : list string) : value :=
  foldl optional_get obj ks.

(** [isCyclic(obj, seen, path)] with a [seen] and a [path] of the
    caller's own. *)
Definition isCyclic_from (obj : value) (path : list string) (st : state)
    : option (bool * state) :=
  isCyclic_fuel (S (size (heap E))) obj path st.

(** No object of the store lists a key twice. *)
Definition distinct_keys : Prop :=
  map_Forall (fun _ o => NoDup (own_keys o)) (heap E).

(** What a call that returns [true] has written: the diagnostic of an
    object [l] at the end of a path [ks] of keys from [obj], where [l] was
    seen before the call or is at the end of another path from [obj]. *)
Definition reports (obj : value) (path : list string) (st st' : state) : Prop :=
  exists ks l st0,
    follow obj ks = VRef l /\
    st' = logCyclicError (VRef l) (path ++ ks) "Cycle detected" st0 /\
    console st0 = console st /\
    (l ∈ seen st \/ exists ks', ks' <> ks /\ follow obj ks' = VRef l).

(** *** The graph of the stored objects *)

(** [l'] is the value of an enumerable property of [l].  The nodes are
    the stored objects and arrays only: [isCyclic] does not enter a
    function (line 19), and a function carries no properties here. *)
Definition edge (l l' : loc) : Prop :=
  exists key, key ∈ Object_keys E (VRef l) /\
              optional_get (VRef l) key = VRef l'.

(** [l] is reachable from itself. *)
Definition on_cycle (l : loc) : Prop := tc edge l l.

(** Some object reachable from [obj] is reachable from itself, through
    objects and arrays. *)
Definition cyclic (obj : value) : Prop :=
  exists l l', obj = VRef l /\ rtc edge l l' /\ on_cycle l'.

End WithHost.

End Utils.

(** ** A host for the examples

    Objects made by literals over a given store, with the user functions
    given by the example.  [String] of any object is ["[object Object]"]
    and the only inherited properties are [constructor] and its [name]:
    the examples stringify no array and no function and read no other
    inherited property. *)

Module Example.
Import Js.

(** [QuoteJSONString] *)
Definition hex_digit (n : N) : string :=
  match n with
  | 10 => "a" | 11 => "b" | 12 => "c" | 13 => "d" | 14 => "e" | 15 => "f"
  | _ => pretty n
  end%N.

Definition json_escape (a : Ascii.ascii) : string :=
  let n := Ascii.N_of_ascii a in
  if (n =? 8)%N then "\b"
  else if (n =? 9)%N then "\t"
  else if (n =? 10)%N then "\n"
  else if (n =? 12)%N then "\f"
  else if (n =? 13)%N then "\r"
  else if (n =? 34)%N then String (Ascii.ascii_of_N 92) (String (Ascii.ascii_of_N 34) "")
  else if (n =? 92)%N then "\\"
  else if (n <? 32)%N then "\u00" +:+ hex_digit (n / 16) +:+ hex_digit (n mod 16)
  else String a "".

Fixpoint json_escape_all (s : string) : string :=
  match s with
  | EmptyString => ""
  | String a s' => json_escape a +:+ json_escape_all s'
  end.

Definition json_quote (s : string) : string :=
  let q := String (Ascii.ascii_of_N 34) "" in
  q +:+ json_escape_all s +:+ q.

Fixpoint sequence {A} (l : list (completion A)) : completion (list A) :=
  match l with
  | [] => Normal []
  | c :: l' => a ← c; r ← sequence l'; Normal (a :: r)
  end.

(** [JSON.stringify] over the store; [stack] holds the objects being
    serialised, and meeting one of them again is the circular structure. *)
Fixpoint json_fuel (fuel : nat) (h : gmap loc object) (stack : list loc)
    (v : value) : completion (option string) :=
  match v with
  | VUndefined | VFun _ => Normal None
  | VNull => Normal (Some "null")
  | VBool b => Normal (Some (if b then "true" else "false"))
  | VNum n => Normal (Some (pretty n))
  | VStr s => Normal (Some (json_quote s))
  | VRef l =>
      if bool_decide (l ∈ stack) then Throw TypeError
      else match fuel with
           | O => Throw TypeError
           | S fuel' =>
               match h !! l with
               | Some (OArray es) =>
                   parts ← sequence
                     ((fun e => r ← json_fuel fuel' h (l :: stack) e;
                                Normal (default "null" r)) <$> es);
                   Normal (Some ("[" +:+ Utils.join "," parts +:+ "]"))
               | Some (ORecord ps) =>
                   parts ← sequence
                     ((fun k =>
                         r ← json_fuel fuel' h (l :: stack)
                               (default VUndefined (lookup_prop k ps));
                         Normal (option_map (fun s => json_quote k +:+ ":" +:+ s) r))
                        <$> own_keys (ORecord ps));
                   Normal (Some ("{" +:+ Utils.join "," (omap id parts) +:+ "}"))
               | None => Normal (Some "{}")
               end
           end
  end.

Definition Object_ctor : nat := 0%nat.
Definition Array_ctor : nat := 1%nat.

Definition node (h : gmap loc object)
    (fns : nat -> value -> list value -> completion value) : host :=
  {| heap := h;
     call := fns;
     inherited := fun v k =>
       match v with
       | VRef l =>
           if bool_decide (k = "constructor") then
             match h !! l with
             | Some (OArray _) => VFun Array_ctor
             | _ => VFun Object_ctor
             end
           else VUndefined
       | VFun f =>
           if bool_decide (k = "name") then
             if bool_decide (f = Object_ctor) then VStr "Object"
             else if bool_decide (f = Array_ctor) then VStr "Array"
             else VStr ""
           else VUndefined
       | _ => VUndefined
       end;
     object_to_string := fun _ => "[object Object]";
     JSON_stringify := fun v =>
       r ← json_fuel (S (size h)) h [] v;
       Normal (from_option VStr VUndefined r) |}.

(** [p] occurs in [s]. *)
Fixpoint occurs (p s : string) {struct s} : bool :=
  String.prefix p s ||
  match s with
  | EmptyString => false
  | String _ s' => occurs p s'
  end.

Definition String_prototype_match : nat := 100%nat.

(** The host [node] with [String.prototype.match] on top: every string
    inherits [match], and ['axb'.match('x')], for a pattern that is a
    string or a number and holds no metacharacter of regular expressions,
    is the array of the match when the pattern occurs in the string and
    [null] when it does not.  The array is the one stored at [found]; the
    dispatcher uses its truthiness only. *)
Definition node_strings (h : gmap loc object)
    (fns : nat -> value -> list value -> completion value) (found : loc) : host :=
  {| heap := h;
     call := fun f this args =>
       if bool_decide (f = String_prototype_match) then
         match this, args with
         | VStr s, [VStr p] => Normal (if occurs p s then VRef found else VNull)
         | VStr s, [VNum n] => Normal (if occurs (pretty n) s then VRef found else VNull)
         | _, _ => Throw TypeError
         end
       else fns f this args;
     inherited := fun v k =>
       match v with
       | VStr _ => if bool_decide (k = "match") then VFun String_prototype_match
                   else VUndefined
       | _ => inherited (node h fns) v k
       end;
     object_to_string := object_to_string (node h fns);
     JSON_stringify := JSON_stringify (node h fns) |}.

(** User functions that are never called. *)
Definition no_functions : nat -> value -> list value -> completion value :=
  fun _ _ _ => Throw TypeError.

End Example.

(** ** The objects and functions of the examples *)

Import Js SwitchCase.

(** Two mappings: [{ a: 'first' }] and [{ undefined: 'by discriminator' }]. *)
Definition two_mappings : gmap loc object :=
  {[ 1%positive := ORecord [("a", VStr "first")];
     2%positive := ORecord [("undefined", VStr "by discriminator")] ]}.

(** A circle [{ kind: 'circle', radius: 5 }] and the case set
    [{ circle: 'Circle', square: 'Square' }]. *)
Definition shapes : gmap loc object :=
  {[ 1%positive := ORecord [("kind", VStr "circle"); ("radius", VNum 5)];
     2%positive := ORecord [("circle", VStr "Circle"); ("square", VStr "Square")] ]}.

(** [{ 200: 'OK', 404: 'Not Found', 500: 'Err' }] *)
Definition http_status : gmap loc object :=
  {[ 1%positive := ORecord [("200", VStr "OK"); ("404", VStr "Not Found");
                            ("500", VStr "Err")] ]}.

(** [{ admin: { match: f2, handler: f3 } }] with [f2] always true and
    [f3] returning ['handled admin']. *)
Definition admin_pair : gmap loc object :=
  {[ 1%positive := ORecord [("admin", VRef 2)];
     2%positive := ORecord [("match", VFun 2); ("handler", VFun 3)] ]}.

Definition admin_functions (f : nat) (this : value) (args : list value)
    : completion value :=
  match f with
  | 2%nat => Normal (VBool true)
  | 3%nat => Normal (VStr "handled admin")
  | _ => Throw TypeError
  end.

(** [[{ match: 5, handler: 'five' }]] *)
Definition literal_in_sequence : gmap loc object :=
  {[ 1%positive := OArray [VRef 2];
     2%positive := ORecord [("match", VNum 5); ("handler", VStr "five")] ]}.

(** [[{ match: f2, handler: 'Child' }, { match: f3, handler: f4 },
      { match: 7, handler: 'seven' }]] with [f2 = a => a < 13],
    [f3 = a => a >= 13] and [f4 = a => a + 1]. *)
Definition ages : gmap loc object :=
  {[ 1%positive := OArray [VRef 2; VRef 3; VRef 4];
     2%positive := ORecord [("match", VFun 2); ("handler", VStr "Child")];
     3%positive := ORecord [("match", VFun 3); ("handler", VFun 4)];
     4%positive := ORecord [("match", VNum 7); ("handler", VStr "seven")] ]}.

Definition age_functions (f : nat) (this : value) (args : list value)
    : completion value :=
  match f, args with
  | 2%nat, [VNum a] => Normal (VBool (a <? 13))
  | 3%nat, [VNum a] => Normal (VBool (13 <=? a))
  | 4%nat, [VNum a] => Normal (VNum (a + 1))
  | _, _ => Throw TypeError
  end.

(** [{ '2': { match: f2, handler: 'two' }, '1': { match: f2, handler: 'one' } }]
    with [f2] always true. *)
Definition numbered_labels : gmap loc object :=
  {[ 1%positive := ORecord [("2", VRef 2); ("1", VRef 3)];
     2%positive := ORecord [("match", VFun 2); ("handler", VStr "two")];
     3%positive := ORecord [("match", VFun 2); ("handler", VStr "one")] ]}.

Definition always_true (f : nat) (this : value) (args : list value)
    : completion value :=
  match f with
  | 2%nat => Normal (VBool true)
  | _ => Throw TypeError
  end.

(** [[{ match: f2, handler: 'None' }, { match: f3, handler: 'Positive' },
      { match: f4, handler: 'Above ten' }]] and
    [{ none: {...}, positive: {...}, aboveTen: {...} }] over the same
    entries, with [f2 = n => n < 0], [f3 = n => n > 0], [f4 = n => n > 10]. *)
Definition broad_then_narrow : gmap loc object :=
  {[ 1%positive := OArray [VRef 3; VRef 4; VRef 5];
     2%positive := ORecord [("none", VRef 3); ("positive", VRef 4);
                            ("aboveTen", VRef 5)];
     3%positive := ORecord [("match", VFun 2); ("handler", VStr "None")];
     4%positive := ORecord [("match", VFun 3); ("handler", VStr "Positive")];
     5%positive := ORecord [("match", VFun 4); ("handler", VStr "Above ten")] ]}.

Definition sign_functions (f : nat) (this : value) (args : list value)
    : completion value :=
  match f, args with
  | 2%nat, [VNum n] => Normal (VBool (n <? 0))
  | 3%nat, [VNum n] => Normal (VBool (0 <? n))
  | 4%nat, [VNum n] => Normal (VBool (10 <? n))
  | _, _ => Throw TypeError
  end.

(** [[{ match: f2, handler: 'ok' }]], [{ nonNegative: { match: f2,
    handler: 'ok' } }], the subject [{ kind: 'triangle', base: 10 }] and
    the case set [{ circle: 'Circle', square: 'Square' }], with
    [f2 = a => a >= 0] and [f3 = () => 'Invalid']. *)
Definition unmatched : gmap loc object :=
  {[ 1%positive := OArray [VRef 2];
     2%positive := ORecord [("match", VFun 2); ("handler", VStr "ok")];
     3%positive := ORecord [("nonNegative", VRef 2)];
     4%positive := ORecord [("kind", VStr "triangle"); ("base", VNum 10)];
     5%positive := ORecord [("circle", VStr "Circle"); ("square", VStr "Square")] ]}.

Definition unmatched_functions (f : nat) (this : value) (args : list value)
    : completion value :=
  match f, args with
  | 2%nat, [VNum a] => Normal (VBool (0 <=? a))
  | 2%nat, [_] => Normal (VBool false)
  | 3%nat, _ => Normal (VStr "Invalid")
  | _, _ => Throw TypeError
  end.

(** [switchCase(-5).case(0, 'zero').case(f2, 'ok')] *)
Definition unmatched_builder : builder :=
  case_ (VFun 2) (VStr "ok")
    (case_ (VNum 0) (VStr "zero") (Builder (VNum (-5)) [] VUndefined)).

(** [{ a: undefined }], [{}], the subject [{ kind: 'a' }] and
    [{ any: { match: f2, handler: 'matched' }, a: undefined }], with
    [f2 = () => true] and [f3 = () => 'Invalid']. *)
Definition undefined_entries : gmap loc object :=
  {[ 1%positive := ORecord [("a", VUndefined)];
     2%positive := ORecord [];
     3%positive := ORecord [("kind", VStr "a")];
     4%positive := ORecord [("any", VRef 5); ("a", VUndefined)];
     5%positive := ORecord [("match", VFun 2); ("handler", VStr "matched")] ]}.

Definition undefined_functions (f : nat) (this : value) (args : list value)
    : completion value :=
  match f with
  | 2%nat => Normal (VBool true)
  | 3%nat => Normal (VStr "Invalid")
  | _ => Throw TypeError
  end.

(** [const shared = {}; const root = { a: shared, b: shared }] *)
Definition diamond : gmap loc object :=
  {[ 1%positive := ORecord [("a", VRef 2); ("b", VRef 2)];
     2%positive := ORecord [] ]}.

(** The objects of the test: [obj = { id: 1 }; obj.self = obj] is
    cyclic, [{ id: 1, data: { value: 2 } }] is not. *)
Definition test_objects : gmap loc object :=
  {[ 1%positive := ORecord [("id", VNum 1); ("self", VRef 1)];
     2%positive := ORecord [("id", VNum 1); ("data", VRef 3)];
     3%positive := ORecord [("value", VNum 2)] ]}.





(** [switchCase(3).case(1, 'one').case(3, f2).case(3, 'again')] with
    [f2 = n => n + 1]. *)
Definition literal_builder : builder :=
  chain (Builder (VNum 3) [] VUndefined)
    [Case (VNum 1) (VStr "one"); Case (VNum 3) (VFun 2);
     Case (VNum 3) (VStr "again")].

Definition successor (f : nat) (this : value) (args : list value)
    : completion value :=
  match f, args with
  | 2%nat, [VNum n] => Normal (VNum (n + 1))
  | _, _ => Throw TypeError
  end.

(** [{ k: 'axb' }], [{ a: 1 }] and the array ['axb'.match('x')]
    returns. *)
Definition literal_strings : gmap loc object :=
  {[ 1%positive := ORecord [("k", VStr "axb")];
     2%positive := ORecord [("a", VNum 1)];
     9%positive := OArray [VStr "x"] ]}.

(** [{ a: { match: f2, handler: 'A' }, b: { match: f2, handler: 'B' } }]
    with [f2] always true. *)
Definition colliding_label : gmap loc object :=
  {[ 1%positive := ORecord [("a", VRef 2); ("b", VRef 3)];
     2%positive := ORecord [("match", VFun 2); ("handler", VStr "A")];
     3%positive := ORecord [("match", VFun 2); ("handler", VStr "B")] ]}.

(** * Properties *)

(** ** The completion monad *)

Lemma bind_normal_inv {A B} (c : completion A) (k : A -> completion B) (b : B) :
  c ≫= k = Normal b -> exists a, c = Normal a /\ k a = Normal b.
Proof. destruct c as [a|e]; simpl; intros H; [eauto | discriminate]. Qed.

(** ** The three loops: entries whose test is falsy are passed over, the
    first entry whose test is truthy returns. *)

Section Loops.
Context (E : host).

Lemma run_for_skip value pre rest after :
  Forall (fun e => entry_test E value e = Normal false) pre ->
  run_for E value (pre ++ rest) after = run_for E value rest after.
Proof.
  induction 1 as [|[m h] pre Hm _ IH]; [reflexivity|].
  simpl. unfold entry_test in Hm. simpl in Hm.
  apply bind_normal_inv in Hm as (r & -> & Hr). simpl.
  injection Hr as ->. exact IH.
Qed.

Lemma run_for_hit value e rest after :
  entry_test E value e = Normal true ->
  run_for E value (e :: rest) after = resolve E (handler e) VUndefined value.
Proof.
  destruct e as [m h]. unfold entry_test. simpl. intros Hm.
  apply bind_normal_inv in Hm as (r & -> & Hr). simpl.
  injection Hr as ->. reflexivity.
Qed.

Lemma array_for_skip value pre rest after :
  Forall (fun e => element_test E value e = Normal false) pre ->
  array_for E value (pre ++ rest) after = array_for E value rest after.
Proof.
  induction 1 as [|e pre Hm _ IH]; [reflexivity|].
  unfold element_test in Hm.
  apply bind_normal_inv in Hm as (m & Hgm & Hm).
  apply bind_normal_inv in Hm as (h & Hgh & Hm).
  apply bind_normal_inv in Hm as (r & Hc & [= Hr]).
  simpl. rewrite Hgm. simpl. rewrite Hgh. simpl. rewrite Hc. simpl.
  rewrite Hr. exact IH.
Qed.

Lemma array_for_hit value e h rest after :
  element_test E value e = Normal true ->
  Get E e "handler" = Normal h ->
  array_for E value (e :: rest) after = resolve E h VUndefined value.
Proof.
  unfold element_test. intros Hm Hh.
  apply bind_normal_inv in Hm as (m & Hgm & Hm).
  apply bind_normal_inv in Hm as (h' & _ & Hm).
  apply bind_normal_inv in Hm as (r & Hc & [= Hr]).
  simpl. rewrite Hgm. simpl. rewrite Hh. simpl. rewrite Hc. simpl.
  rewrite Hr. reflexivity.
Qed.

Lemma keys_for_skip value cases pre rest after :
  Forall (fun k => key_test E value cases k = Normal false) pre ->
  keys_for E value cases (pre ++ rest) after = keys_for E value cases rest after.
Proof.
  induction 1 as [|k pre Hm _ IH]; [reflexivity|].
  unfold key_test in Hm.
  apply bind_normal_inv in Hm as (c & Hgc & Hm).
  simpl. rewrite Hgc. simpl.
  destruct (is_function c); simpl in *; [exact IH|].
  apply bind_normal_inv in Hm as (m & Hgm & Hm).
  apply bind_normal_inv in Hm as (r & Hc & [= Hr]).
  rewrite Hgm. simpl. rewrite Hc. simpl. rewrite Hr. exact IH.
Qed.

Lemma keys_for_hit value cases k rest after :
  key_test E value cases k = Normal true ->
  keys_for E value cases (k :: rest) after = key_result E value cases k.
Proof.
  unfold key_test, key_result. intros Hm.
  apply bind_normal_inv in Hm as (c & Hgc & Hm).
  simpl. rewrite Hgc. simpl.
  destruct (is_function c); simpl in *; [discriminate|].
  apply bind_normal_inv in Hm as (m & Hgm & Hm).
  apply bind_normal_inv in Hm as (r & Hc & [= Hr]).
  rewrite Hgm. simpl. rewrite Hc. simpl. rewrite Hr. reflexivity.
Qed.

End Loops.

(** ** The shape of the call *)

Lemma switchCase_by_mode (E : host) (value a2 a3 a4 : value) :
  switchCase E value a2 a3 a4 =
  match mode_of E a2 with
  | Chainable => Normal (Chain (Builder value [] VUndefined))
  | Sequence => Value <$> switchCase_array E value a2 a3
  | ObjectMap => Value <$> switchCase_object E value a2 a3
  | Discriminator => Value <$> switchCase_discriminated E value a2 a3 a4
  end.
Proof.
  unfold switchCase, mode_of.
  destruct (strict_eq a2 VUndefined); [reflexivity|].
  destruct (Array_isArray E a2); [reflexivity|].
  destruct (is_object a2); reflexivity.
Qed.

Lemma mapping_mode (E : host) (a2 : value) :
  is_mapping E a2 = true -> mode_of E a2 = ObjectMap.
Proof.
  unfold is_mapping, mode_of. destruct a2 as [| | | | | |l]; try discriminate.
  simpl. destruct (heap E !! l) as [[ps|es]|]; try discriminate. reflexivity.
Qed.

Lemma array_mode (E : host) (a2 : value) :
  Array_isArray E a2 = true -> mode_of E a2 = Sequence.
Proof.
  unfold mode_of. destruct a2 as [| | | | | |l]; try discriminate.
  intros ->. reflexivity.
Qed.

(** C1, as stated, fails: with a mapping as second and a mapping as third
    argument the call is not dispatched on a discriminator; the second
    argument is the case set, and [switchCase('a', { a: 'first' },
    { undefined: 'by discriminator' })] is ['first'], where the
    discriminator reading of the same arguments gives ['by discriminator']. *)
Lemma call_shape_two_mappings :
  let E := Example.node two_mappings Example.no_functions in
  is_mapping E (VRef 1) = true /\
  is_mapping E (VRef 2) = true /\
  mode_of E (VRef 1) = ObjectMap /\
  switchCase E (VStr "a") (VRef 1) (VRef 2) VUndefined
    = Normal (Value (VStr "first")) /\
  switchCase_discriminated E (VStr "a") (VRef 1) (VRef 2) VUndefined
    = Normal (VStr "by discriminator").
Proof. vm_compute. repeat split; reflexivity. Qed.

(** C1 (amended): a call is dispatched on a discriminator exactly when
    the second argument is given and is neither an array nor an object (a
    key such as a string), with the third argument as the case set and the
    fourth as the default handler; whenever the second argument is a
    mapping it is itself the case set and the third argument is the default
    handler, whatever the third argument is. *)
Theorem call_shape_classification (E : host) (value a2 a3 a4 : value) :
  (mode_of E a2 = Discriminator <->
     a2 <> VUndefined /\ Array_isArray E a2 = false /\ is_object a2 = false) /\
  (mode_of E a2 = Discriminator ->
     switchCase E value a2 a3 a4
       = Value <$> switchCase_discriminated E value a2 a3 a4) /\
  (is_mapping E a2 = true ->
     mode_of E a2 = ObjectMap /\
     switchCase E value a2 a3 a4 = Value <$> switchCase_object E value a2 a3).
Proof.
  split; [|split].
  - unfold mode_of, strict_eq. case_bool_decide as Hu.
    + split; [discriminate|]. intros (H & _). contradiction.
    + destruct (Array_isArray E a2); [split; [discriminate|intros (_ & ? & _); discriminate]|].
      destruct (is_object a2); [split; [discriminate|intros (_ & _ & ?); discriminate]|].
      split; auto.
  - intros Hm. rewrite switchCase_by_mode, Hm. reflexivity.
  - intros Hm. apply mapping_mode in Hm. split; [exact Hm|].
    rewrite switchCase_by_mode, Hm. reflexivity.
Qed.

Lemma call_shape_classification_witness :
  let E := Example.node shapes Example.no_functions in
  switchCase E (VRef 1) (VStr "kind") (VRef 2) VUndefined
    = Value <$> switchCase_discriminated E (VRef 1) (VStr "kind") (VRef 2) VUndefined /\
  (mode_of E (VRef 2) = ObjectMap /\
   switchCase E (VStr "circle") (VRef 2) (VRef 1) VUndefined
     = Value <$> switchCase_object E (VStr "circle") (VRef 2) (VRef 1)).
Proof.
  intros E. split.
  - apply (call_shape_classification E (VRef 1) (VStr "kind") (VRef 2) VUndefined).
    reflexivity.
  - apply (call_shape_classification E (VStr "circle") (VRef 2) (VRef 1) VUndefined).
    reflexivity.
Defined.

(** ** The literal lookup of the object branch *)

(** C2, as stated, fails: a predicate pair stored under the stringified
    subject is returned as it is, its [handler] is not invoked:
    [switchCase('admin', { admin: { match, handler } })] is the pair. *)
Lemma literal_fast_path_pair_returned :
  let E := Example.node admin_pair admin_functions in
  is_mapping E (VRef 1) = true /\
  Get E (VRef 1) (String_ E (VStr "admin")) = Normal (VRef 2) /\
  Get E (VRef 2) "handler" = Normal (VFun 3) /\
  Call E (VFun 3) (VRef 2) [VStr "admin"] = Normal (VStr "handled admin") /\
  switchCase E (VStr "admin") (VRef 1) VUndefined VUndefined
    = Normal (Value (VRef 2)).
Proof. vm_compute. repeat split; reflexivity. Qed.

(** C2 (amended): in object-based mode, when the case set holds a value
    other than [undefined] under the stringified subject, that value is
    resolved before any predicate entry is looked at: a function is invoked
    with no arguments, anything else (a predicate pair too) is returned as
    it is; and [switchCase(404, {200:'OK',404:'Not Found',500:'Err'})] is
    ['Not Found']. *)
Theorem literal_fast_path :
  (forall (E : host) (value cases defaultFn a4 literalHandler : Js.value),
      is_mapping E cases = true ->
      Get E cases (String_ E value) = Normal literalHandler ->
      literalHandler <> VUndefined ->
      switchCase E value cases defaultFn a4
        = Value <$> (if is_function literalHandler
                     then Call E literalHandler VUndefined []
                     else Normal literalHandler)) /\
  switchCase (Example.node http_status Example.no_functions)
    (VNum 404) (VRef 1) VUndefined VUndefined
    = Normal (Value (VStr "Not Found")).
Proof.
  split; [|vm_compute; reflexivity].
  intros E value cases defaultFn a4 lh Hm Hg Hu.
  rewrite switchCase_by_mode, (mapping_mode _ _ Hm).
  unfold switchCase_object. rewrite Hg. simpl.
  unfold strict_eq. rewrite bool_decide_eq_false_2 by exact Hu. reflexivity.
Qed.

Lemma literal_fast_path_witness :
  let E := Example.node http_status Example.no_functions in
  switchCase E (VNum 500) (VRef 1) VUndefined VUndefined
    = Value <$> (if is_function (VStr "Err")
                 then Call E (VStr "Err") VUndefined []
                 else Normal (VStr "Err")).
Proof.
  intros E.
  apply (proj1 literal_fast_path E (VNum 500) (VRef 1) VUndefined VUndefined (VStr "Err")).
  - reflexivity.
  - reflexivity.
  - discriminate.
Defined.

(** ** The array branch *)

(** C3, as stated, fails: the array branch calls [match] whatever it is,
    and a [match] that is not callable is not compared with the subject:
    [switchCase(5, [{ match: 5, handler: 'five' }])] raises a [TypeError]
    although [5 === 5]. *)
Lemma sequence_literal_match_throws :
  let E := Example.node literal_in_sequence Example.no_functions in
  Array_isArray E (VRef 1) = true /\
  elements_of E (VRef 1) = [VRef 2] /\
  Get E (VRef 2) "match" = Normal (VNum 5) /\
  is_function (VNum 5) = false /\
  strict_eq (VNum 5) (VNum 5) = true /\
  Get E (VRef 2) "handler" = Normal (VStr "five") /\
  switchCase E (VNum 5) (VRef 1) VUndefined VUndefined = Throw TypeError.
Proof. vm_compute. repeat split; reflexivity. Qed.

(** C3 (amended): in array-based mode, for entries whose [match] is
    callable (as the array overload types it), the entries are evaluated in
    the given order, each by calling its [match] with the subject; the first
    entry whose call is truthy supplies the result, its handler invoked with
    the subject if callable, else returned as it is. *)
Theorem predicate_sequence_match_rule (E : host)
    (value cases defaultFn a4 : Js.value) (pre post : list Js.value)
    (e m h r : Js.value) :
  Array_isArray E cases = true ->
  elements_of E cases = pre ++ e :: post ->
  Forall (fun e' => exists m' h' r',
            Get E e' "match" = Normal m' /\ Get E e' "handler" = Normal h' /\
            Call E m' VUndefined [value] = Normal r' /\ ToBoolean r' = false) pre ->
  Get E e "match" = Normal m ->
  Get E e "handler" = Normal h ->
  Call E m VUndefined [value] = Normal r ->
  ToBoolean r = true ->
  switchCase E value cases defaultFn a4
    = Value <$> (if is_function h then Call E h VUndefined [value] else Normal h).
Proof.
  intros Ha Hes Hpre Hm Hh Hc Hr.
  assert (Hskip : Forall (fun e' => element_test E value e' = Normal false) pre).
  { eapply Forall_impl; [exact Hpre|].
    intros e' (m' & h' & r' & Hm' & Hh' & Hc' & Hr').
    unfold element_test. rewrite Hm'. simpl. rewrite Hh'. simpl. rewrite Hc'. simpl.
    rewrite Hr'. reflexivity. }
  rewrite switchCase_by_mode, (array_mode _ _ Ha).
  unfold switchCase_array. rewrite Hes, (array_for_skip _ _ _ _ _ Hskip).
  rewrite (array_for_hit E value e h); [reflexivity| |exact Hh].
  unfold element_test. rewrite Hm. simpl. rewrite Hh. simpl. rewrite Hc. simpl.
  rewrite Hr. reflexivity.
Qed.

Lemma predicate_sequence_match_rule_witness :
  let E := Example.node ages age_functions in
  switchCase E (VNum 15) (VRef 1) VUndefined VUndefined
    = Value <$> (if is_function (VFun 4) then Call E (VFun 4) VUndefined [VNum 15]
                 else Normal (VFun 4)).
Proof.
  intros E.
  apply (predicate_sequence_match_rule E (VNum 15) (VRef 1) VUndefined
           VUndefined [VRef 2] [VRef 4] (VRef 3) (VFun 3) (VFun 4) (VBool true));
    try reflexivity.
  constructor; [|constructor].
  exists (VFun 2), (VStr "Child"), (VBool false). repeat split; reflexivity.
Defined.

(** The first entry reached whose [match] is not callable raises a
    [TypeError]; it is not compared with the subject. *)
Lemma sequence_match_not_callable (E : host)
    (value cases defaultFn a4 : Js.value) (pre post : list Js.value)
    (e m h : Js.value) :
  Array_isArray E cases = true ->
  elements_of E cases = pre ++ e :: post ->
  Forall (fun e' => element_test E value e' = Normal false) pre ->
  Get E e "match" = Normal m ->
  Get E e "handler" = Normal h ->
  is_function m = false ->
  switchCase E value cases defaultFn a4 = Throw TypeError.
Proof.
  intros Ha Hes Hskip Hm Hh Hf.
  rewrite switchCase_by_mode, (array_mode _ _ Ha).
  unfold switchCase_array. rewrite Hes, (array_for_skip _ _ _ _ _ Hskip).
  simpl. rewrite Hm. simpl. rewrite Hh. simpl.
  destruct m; try reflexivity. discriminate.
Qed.

(** ** The order of evaluation *)

(** Keys that are no array indices are enumerated in creation order. *)
Lemma index_keys_none (ks : list string) :
  Forall (fun k => array_index k = None) ks -> index_keys ks = [].
Proof.
  induction 1 as [|k ks Hk _ IH]; [reflexivity|].
  unfold index_keys in *. simpl. rewrite Hk. exact IH.
Qed.

Lemma name_keys_all (ks : list string) :
  Forall (fun k => array_index k = None) ks -> name_keys ks = ks.
Proof.
  induction 1 as [|k ks Hk _ IH]; [reflexivity|].
  unfold name_keys in *. rewrite filter_cons_True by exact Hk. by rewrite IH.
Qed.

Lemma own_keys_creation_order (ps : list (string * value)) :
  Forall (fun k => array_index k = None) ps.*1 ->
  own_keys (ORecord ps) = ps.*1.
Proof.
  intros H. unfold own_keys.
  rewrite (index_keys_none _ H), (name_keys_all _ H). reflexivity.
Qed.

(** C5, as stated, fails for a predicate map whose labels are array
    indices: [Object.keys] enumerates them in ascending order, not in
    insertion order.  Both entries of
    [{ '2': { match, handler: 'two' }, '1': { match, handler: 'one' } }]
    match the subject [5], the entry declared first is ['2'], and the
    result is ['one']. *)
Lemma first_match_numbered_labels :
  let E := Example.node numbered_labels always_true in
  heap E !! 1%positive = Some (ORecord [("2", VRef 2); ("1", VRef 3)]) /\
  Object_keys E (VRef 1) = ["1"; "2"] /\
  key_test E (VNum 5) (VRef 1) "2" = Normal true /\
  key_test E (VNum 5) (VRef 1) "1" = Normal true /\
  key_result E (VNum 5) (VRef 1) "2" = Normal (VStr "two") /\
  switchCase E (VNum 5) (VRef 1) VUndefined VUndefined
    = Normal (Value (VStr "one")).
Proof. vm_compute. repeat split; reflexivity. Qed.

(** [Object.keys] enumerates the own keys, all of them. *)
Lemma lookup_prop_key (k : string) (ps : list (string * value)) (x : value) :
  lookup_prop k ps = Some x -> k ∈ ps.*1.
Proof.
  induction ps as [|[k' v] ps IH]; simpl; [discriminate|].
  case_bool_decide as Hk.
  - intros _. subst. apply elem_of_cons. by left.
  - intros H. apply elem_of_cons. right. exact (IH H).
Qed.

Lemma insert_index_elem (x y : N * string) (l : list (N * string)) :
  x ∈ insert_index y l <-> x = y \/ x ∈ l.
Proof.
  induction l as [|z l IH]; simpl.
  - rewrite list_elem_of_singleton. split; [auto|]. intros [?|H]; [done|].
    by apply elem_of_nil in H.
  - destruct (y.1 <? z.1)%N.
    + by rewrite elem_of_cons.
    + rewrite !elem_of_cons, IH. tauto.
Qed.

Lemma sort_indices_elem (x : N * string) (l : list (N * string)) :
  x ∈ sort_indices l <-> x ∈ l.
Proof.
  induction l as [|y l IH]; simpl; [reflexivity|].
  rewrite insert_index_elem, elem_of_cons, IH. reflexivity.
Qed.

Lemma own_keys_elem (k : string) (ps : list (string * value)) :
  k ∈ own_keys (ORecord ps) <-> k ∈ ps.*1.
Proof.
  unfold own_keys. rewrite elem_of_app. split.
  - intros [H|H].
    + apply list_elem_of_fmap in H as ([n k'] & -> & H).
      rewrite sort_indices_elem in H. unfold index_keys in H.
      apply list_elem_of_omap in H as (k0 & Hk0 & H).
      destruct (array_index k0); [|discriminate]. injection H as _ <-. exact Hk0.
    + unfold name_keys in H. apply list_elem_of_filter in H as [_ H]. exact H.
  - intros H. destruct (array_index k) as [n|] eqn:Hk.
    + left. apply list_elem_of_fmap. exists (n, k). split; [reflexivity|].
      rewrite sort_indices_elem. unfold index_keys.
      apply list_elem_of_omap. exists k. split; [exact H|]. by rewrite Hk.
    + right. unfold name_keys. apply list_elem_of_filter. split; [exact Hk|exact H].
Qed.

(** A key that is present is met by the scan. *)
Lemma present_key_scanned (E : host) (l : loc) (ps : list (string * value))
    (k : string) (x : value) :
  heap E !! l = Some (ORecord ps) -> lookup_prop k ps = Some x ->
  exists pre post, Object_keys E (VRef l) = pre ++ k :: post.
Proof.
  intros Hl Hk. simpl. rewrite Hl.
  apply list_elem_of_split, own_keys_elem. exact (lookup_prop_key _ _ _ Hk).
Qed.


(** The same when the label of a later entry is the stringified subject:
    both entries of [{ a: { match, handler: 'A' }, b: { match, handler: 'B' } }]
    match the subject ['b'], and the result is the pair stored under [b],
    which the literal lookup returns before any entry is tested. *)
Lemma first_match_label_is_subject :
  let E := Example.node colliding_label always_true in
  Object_keys E (VRef 1) = ["a"; "b"] /\
  key_test E (VStr "b") (VRef 1) "a" = Normal true /\
  key_test E (VStr "b") (VRef 1) "b" = Normal true /\
  key_result E (VStr "b") (VRef 1) "a" = Normal (VStr "A") /\
  switchCase E (VStr "b") (VRef 1) VUndefined VUndefined
    = Normal (Value (VRef 3)).
Proof. vm_compute. repeat split; reflexivity. Qed.

(** The order of [Object.keys]: the index keys are sorted by their
    numbers. *)
Lemma insert_index_perm (x : N * string) (l : list (N * string)) :
  insert_index x l ≡ₚ x :: l.
Proof.
  induction l as [|y l IH]; simpl; [reflexivity|].
  destruct (x.1 <? y.1)%N; [reflexivity|].
  rewrite IH. apply Permutation_swap.
Qed.

Lemma sort_indices_perm (l : list (N * string)) : sort_indices l ≡ₚ l.
Proof.
  induction l as [|x l IH]; simpl; [reflexivity|].
  by rewrite insert_index_perm, IH.
Qed.

Lemma insert_index_sorted (x : N * string) (l : list (N * string)) :
  StronglySorted (fun a b => (a.1 <= b.1)%N) l ->
  StronglySorted (fun a b => (a.1 <= b.1)%N) (insert_index x l).
Proof.
  induction l as [|y l IH]; intros Hs; simpl; [repeat constructor|].
  apply StronglySorted_inv in Hs as [Hs Hall].
  destruct (x.1 <? y.1)%N eqn:Hlt.
  - apply N.ltb_lt in Hlt. constructor; [by constructor|].
    constructor; [lia|]. eapply Forall_impl; [exact Hall|].
    intros z Hz. simpl in Hz. lia.
  - apply N.ltb_ge in Hlt. constructor; [exact (IH Hs)|].
    apply Forall_forall. intros w [->|Hw]%insert_index_elem; [exact Hlt|].
    rewrite Forall_forall in Hall. exact (Hall w Hw).
Qed.

Lemma sort_indices_sorted (l : list (N * string)) :
  StronglySorted (fun a b => (a.1 <= b.1)%N) (sort_indices l).
Proof.
  induction l as [|x l IH]; simpl; [constructor|].
  by apply insert_index_sorted.
Qed.

Lemma index_keys_cons (k : string) (ks : list string) :
  index_keys (k :: ks) =
    match array_index k with
    | Some n => (n, k) :: index_keys ks
    | None => index_keys ks
    end.
Proof. unfold index_keys. simpl. destruct (array_index k); reflexivity. Qed.

Lemma index_keys_labels (ks : list string) :
  (index_keys ks).*2 = filter (fun k => is_Some (array_index k)) ks.
Proof.
  induction ks as [|k ks IH]; [reflexivity|].
  rewrite index_keys_cons.
  destruct (array_index k) as [n|] eqn:Hk.
  - rewrite filter_cons_True by (rewrite Hk; eauto).
    rewrite fmap_cons, IH. reflexivity.
  - rewrite filter_cons_False by (rewrite Hk; by intros [? ?]). exact IH.
Qed.

Lemma index_keys_numbers (ks : list string) :
  Forall (fun x => array_index x.2 = Some x.1) (index_keys ks).
Proof.
  apply Forall_forall. intros [n k] Hx. unfold index_keys in Hx.
  apply list_elem_of_omap in Hx as (k0 & _ & Hk0).
  destruct (array_index k0) eqn:Hk; [|discriminate].
  injection Hk0 as <- <-. exact Hk.
Qed.

(** C5 (amended): when two entries both match the subject, and the test
    of every entry evaluated before the earlier of them is falsy, the
    result is the one resolved from the earlier entry in evaluation order;
    in a predicate
    map this holds when the literal lookup misses, that is when the map
    holds nothing but [undefined] under the stringified subject.  The
    evaluation order of a predicate sequence is the order of the array;
    that of a predicate map is the order of [Object.keys]: the labels that
    are array indices first, in ascending numeric order, then the other
    labels in insertion order, which is insertion order when no label is
    an array index. *)
Theorem first_match_wins (E : host) (value cases defaultFn a4 : Js.value) :
  (forall pre mid post e1 e2 h1,
      Array_isArray E cases = true ->
      elements_of E cases = pre ++ e1 :: mid ++ e2 :: post ->
      Forall (fun e => element_test E value e = Normal false) pre ->
      element_test E value e1 = Normal true ->
      element_test E value e2 = Normal true ->
      Get E e1 "handler" = Normal h1 ->
      switchCase E value cases defaultFn a4
        = Value <$> resolve E h1 VUndefined value) /\
  (forall pre mid post k1 k2,
      is_mapping E cases = true ->
      Get E cases (String_ E value) = Normal VUndefined ->
      Object_keys E cases = pre ++ k1 :: mid ++ k2 :: post ->
      Forall (fun k => key_test E value cases k = Normal false) pre ->
      key_test E value cases k1 = Normal true ->
      key_test E value cases k2 = Normal true ->
      switchCase E value cases defaultFn a4
        = Value <$> key_result E value cases k1) /\
  (forall l ps,
      cases = VRef l ->
      heap E !! l = Some (ORecord ps) ->
      exists idx : list (N * string),
        Object_keys E cases
          = idx.*2 ++ filter (fun k => array_index k = None) ps.*1 /\
        idx.*2 ≡ₚ filter (fun k => is_Some (array_index k)) ps.*1 /\
        Forall (fun x => array_index x.2 = Some x.1) idx /\
        StronglySorted (fun a b => (a.1 <= b.1)%N) idx) /\
  (forall l ps,
      cases = VRef l ->
      heap E !! l = Some (ORecord ps) ->
      Forall (fun k => array_index k = None) ps.*1 ->
      Object_keys E cases = ps.*1).
Proof.
  split; [|split; [|split]].
  - intros pre mid post e1 e2 h1 Ha Hes Hpre H1 _ Hh.
    rewrite switchCase_by_mode, (array_mode _ _ Ha).
    unfold switchCase_array.
    rewrite Hes, (array_for_skip _ _ _ _ _ Hpre).
    rewrite (array_for_hit E value e1 h1 _ _ H1 Hh). reflexivity.
  - intros pre mid post k1 k2 Hm Hlit Hks Hpre H1 _.
    rewrite switchCase_by_mode, (mapping_mode _ _ Hm).
    unfold switchCase_object. rewrite Hlit. simpl.
    unfold scan_object.
    rewrite Hks, (keys_for_skip _ _ _ _ _ _ Hpre).
    rewrite (keys_for_hit E value cases k1 _ _ H1). reflexivity.
  - intros l ps -> Hl. simpl. rewrite Hl.
    exists (sort_indices (index_keys ps.*1)). split; [reflexivity|].
    split; [by rewrite sort_indices_perm, index_keys_labels|].
    split; [|apply sort_indices_sorted].
    apply Forall_forall. intros x Hx. rewrite sort_indices_elem in Hx.
    pose proof (index_keys_numbers ps.*1) as Hall.
    rewrite Forall_forall in Hall. exact (Hall x Hx).
  - intros l ps -> Hl Hks. simpl. rewrite Hl.
    apply own_keys_creation_order, Hks.
Qed.

Lemma first_match_wins_witness :
  let E := Example.node broad_then_narrow sign_functions in
  let E' := Example.node numbered_labels always_true in
  switchCase E (VNum 42) (VRef 1) VUndefined VUndefined
    = Value <$> resolve E (VStr "Positive") VUndefined (VNum 42) /\
  switchCase E (VNum 42) (VRef 2) VUndefined VUndefined
    = Value <$> key_result E (VNum 42) (VRef 2) "positive" /\
  (exists idx : list (N * string),
     Object_keys E' (VRef 1)
       = idx.*2 ++ filter (fun k => array_index k = None) ["2"; "1"] /\
     idx.*2 ≡ₚ filter (fun k => is_Some (array_index k)) ["2"; "1"] /\
     Forall (fun x => array_index x.2 = Some x.1) idx /\
     StronglySorted (fun a b => (a.1 <= b.1)%N) idx) /\
  Object_keys E (VRef 2) = ["none"; "positive"; "aboveTen"].
Proof.
  intros E E'.
  split; [|split; [|split]].
  - apply (proj1 (first_match_wins E (VNum 42) (VRef 1) VUndefined VUndefined)
             [VRef 3] [] [] (VRef 4) (VRef 5) (VStr "Positive"));
      try reflexivity.
    constructor; [reflexivity|constructor].
  - apply (proj1 (proj2 (first_match_wins E (VNum 42) (VRef 2) VUndefined VUndefined))
             ["none"] [] [] "positive" "aboveTen");
      try reflexivity.
    constructor; [reflexivity|constructor].
  - apply (proj1 (proj2 (proj2 (first_match_wins E' (VNum 5) (VRef 1) VUndefined
                                  VUndefined)))
             1%positive [("2", VRef 2); ("1", VRef 3)]); reflexivity.
  - apply (proj2 (proj2 (proj2 (first_match_wins E (VNum 42) (VRef 2) VUndefined
                                  VUndefined)))
             2%positive
             [("none", VRef 3); ("positive", VRef 4); ("aboveTen", VRef 5)]);
      try reflexivity.
    repeat constructor.
Defined.

(** ** No case matches *)

Section Exhaustion.
Context (E : host).

Lemma run_for_none value cs after :
  Forall (fun e => entry_test E value e = Normal false) cs ->
  run_for E value cs after = after.
Proof.
  intros H. rewrite <- (app_nil_r cs). apply (run_for_skip E value cs [] after H).
Qed.

Lemma array_for_none value es after :
  Forall (fun e => element_test E value e = Normal false) es ->
  array_for E value es after = after.
Proof.
  intros H. rewrite <- (app_nil_r es). apply (array_for_skip E value es [] after H).
Qed.

Lemma keys_for_none value cases ks after :
  Forall (fun k => key_test E value cases k = Normal false) ks ->
  keys_for E value cases ks after = after.
Proof.
  intros H. rewrite <- (app_nil_r ks).
  apply (keys_for_skip E value cases ks [] after H).
Qed.

(** What is left of each branch when no case matches: the default
    handler if it is truthy, the throw otherwise. *)
Lemma run_exhausted b :
  Forall (fun e => entry_test E (subject b) e = Normal false) (cases b) ->
  run E b =
    (if ToBoolean (defaultFn b)
     then Call E (defaultFn b) VUndefined [subject b]
     else throw_no_match E (subject b), b).
Proof. intros H. unfold run. by rewrite run_for_none. Qed.

Lemma array_exhausted value cases defaultFn a4 :
  Array_isArray E cases = true ->
  Forall (fun e => element_test E value e = Normal false) (elements_of E cases) ->
  switchCase E value cases defaultFn a4 =
    Value <$> (if ToBoolean defaultFn then Call E defaultFn VUndefined [value]
               else throw_no_match E value).
Proof.
  intros Ha H. rewrite switchCase_by_mode, (array_mode _ _ Ha).
  unfold switchCase_array. by rewrite array_for_none.
Qed.

Lemma object_exhausted value cases defaultFn a4 :
  is_mapping E cases = true ->
  Get E cases (String_ E value) = Normal VUndefined ->
  Forall (fun k => key_test E value cases k = Normal false) (Object_keys E cases) ->
  switchCase E value cases defaultFn a4 =
    Value <$> (if ToBoolean defaultFn then Call E defaultFn VUndefined [value]
               else throw_no_match E value).
Proof.
  intros Hm Hlit H. rewrite switchCase_by_mode, (mapping_mode _ _ Hm).
  unfold switchCase_object, scan_object. rewrite Hlit. simpl.
  by rewrite keys_for_none.
Qed.

Lemma discriminator_exhausted value discriminator cases defaultHandler field :
  mode_of E discriminator = Discriminator ->
  Get E value (String_ E discriminator) = Normal field ->
  Get E cases (String_ E field) = Normal VUndefined ->
  switchCase E value discriminator cases defaultHandler =
    Value <$> (if ToBoolean defaultHandler
               then Call E defaultHandler VUndefined [value]
               else Throw (Error ("No matching case for "
                                    +:+ String_ E discriminator +:+ ": "
                                    +:+ String_ E field))).
Proof.
  intros Hm Hf Hc. rewrite switchCase_by_mode, Hm.
  unfold switchCase_discriminated. rewrite Hf. simpl. rewrite Hc. reflexivity.
Qed.

End Exhaustion.

(** C6: the code returns [undefined] where the claim asks for the
    NoMatch failure.  In [switchCase('x', { k: 'axb' })] no key of the
    literal map is the subject and no default handler is given; the scan
    over the keys takes the entry ['axb'] for a predicate pair, line 126
    finds [String.prototype.match] as its [match] and calls it,
    ['axb'.match('x')] is truthy, and line 128 returns ['axb'.handler],
    which is [undefined]: nothing is raised. *)
Theorem no_match_literal_map :
  let E := Example.node_strings literal_strings undefined_functions 9 in
  is_mapping E (VRef 1) = true /\
  Object_keys E (VRef 1) = ["k"] /\
  Get E (VRef 1) (String_ E (VStr "x")) = Normal VUndefined /\
  Get E (VRef 1) "k" = Normal (VStr "axb") /\
  Get E (VStr "axb") "match" = Normal (VFun Example.String_prototype_match) /\
  Call E (VFun Example.String_prototype_match) (VStr "axb") [VStr "x"]
    = Normal (VRef 9) /\
  Get E (VStr "axb") "handler" = Normal VUndefined /\
  switchCase E (VStr "x") (VRef 1) VUndefined VUndefined
    = Normal (Value VUndefined).
Proof. vm_compute. repeat split; reflexivity. Qed.

(** Where the test of every entry is falsy and no default handler was
    supplied, every branch of [switchCase] and the builder's [run] raise
    an [Error]; its message is [No matching case for value: ] followed by
    the JSON text of the subject, when [JSON.stringify] returns one, in the
    builder, array and object branches, and
    [No matching case for <discriminator>: <stringified field>] in the
    discriminator branch. *)
Theorem no_match_failure (E : host) (value : Js.value) :
  (forall b j,
      subject b = value ->
      Forall (fun e => entry_test E value e = Normal false) (cases b) ->
      defaultFn b = VUndefined ->
      JSON_stringify E value = Normal j ->
      run E b = (Throw (Error ("No matching case for value: " +:+ String_ E j)), b)) /\
  (forall cases a4 j,
      Array_isArray E cases = true ->
      Forall (fun e => element_test E value e = Normal false) (elements_of E cases) ->
      JSON_stringify E value = Normal j ->
      switchCase E value cases VUndefined a4
        = Throw (Error ("No matching case for value: " +:+ String_ E j))) /\
  (forall cases a4 j,
      is_mapping E cases = true ->
      Get E cases (String_ E value) = Normal VUndefined ->
      Forall (fun k => key_test E value cases k = Normal false) (Object_keys E cases) ->
      JSON_stringify E value = Normal j ->
      switchCase E value cases VUndefined a4
        = Throw (Error ("No matching case for value: " +:+ String_ E j))) /\
  (forall discriminator cases field,
      mode_of E discriminator = Discriminator ->
      Get E value (String_ E discriminator) = Normal field ->
      Get E cases (String_ E field) = Normal VUndefined ->
      switchCase E value discriminator cases VUndefined
        = Throw (Error ("No matching case for " +:+ String_ E discriminator
                          +:+ ": " +:+ String_ E field))).
Proof.
  repeat split.
  - intros b j <- Hc Hd Hj. rewrite (run_exhausted E b Hc), Hd. simpl.
    unfold throw_no_match. rewrite Hj. reflexivity.
  - intros cases a4 j Ha Hc Hj. rewrite (array_exhausted E _ _ _ _ Ha Hc). simpl.
    unfold throw_no_match. rewrite Hj. reflexivity.
  - intros cases a4 j Hm Hlit Hc Hj.
    rewrite (object_exhausted E _ _ _ _ Hm Hlit Hc). simpl.
    unfold throw_no_match. rewrite Hj. reflexivity.
  - intros d cases field Hm Hf Hc.
    rewrite (discriminator_exhausted E _ _ _ _ _ Hm Hf Hc). reflexivity.
Qed.

Lemma no_match_failure_witness :
  let E := Example.node unmatched unmatched_functions in
  run E (unmatched_builder)
    = (Throw (Error "No matching case for value: -5"), unmatched_builder) /\
  switchCase E (VNum (-5)) (VRef 1) VUndefined VUndefined
    = Throw (Error "No matching case for value: -5") /\
  switchCase E (VNum (-5)) (VRef 3) VUndefined VUndefined
    = Throw (Error "No matching case for value: -5") /\
  switchCase E (VRef 4) (VStr "kind") (VRef 5) VUndefined
    = Throw (Error "No matching case for kind: triangle").
Proof.
  intros E.
  destruct (no_match_failure E (VNum (-5))) as (Hb & Ha & Ho & _).
  destruct (no_match_failure E (VRef 4)) as (_ & _ & _ & Hd).
  split; [|split; [|split]].
  - apply (Hb (unmatched_builder) (VStr "-5")); try reflexivity.
    repeat constructor.
  - apply (Ha (VRef 1) VUndefined (VStr "-5")); try reflexivity.
    repeat constructor.
  - apply (Ho (VRef 3) VUndefined (VStr "-5")); try reflexivity.
    repeat constructor.
  - apply (Hd (VStr "kind") (VRef 5) (VStr "triangle")); reflexivity.
Defined.

(** C7: the code returns [undefined] without calling the default
    handler.  In [switchCase('x', { k: 'axb' }, d)] no key of the literal
    map is the subject; the scan over the keys takes the entry ['axb'] for
    a predicate pair, ['axb'.match('x')] is truthy (line 126) and
    ['axb'.handler], which is [undefined], is returned (line 128).  The
    same in [switchCase(undefined, { a: 1 }, d)], where [(1).match] is
    [undefined], which is the subject. *)
Theorem default_skipped_literal_map :
  let E := Example.node_strings literal_strings undefined_functions 9 in
  Call E (VFun 3) VUndefined [VStr "x"] = Normal (VStr "Invalid") /\
  Get E (VRef 1) (String_ E (VStr "x")) = Normal VUndefined /\
  Object_keys E (VRef 1) = ["k"] /\
  Get E (VRef 1) "k" = Normal (VStr "axb") /\
  switchCase E (VStr "x") (VRef 1) (VFun 3) VUndefined
    = Normal (Value VUndefined) /\
  Get E (VRef 2) (String_ E VUndefined) = Normal VUndefined /\
  Object_keys E (VRef 2) = ["a"] /\
  Get E (VNum 1) "match" = Normal VUndefined /\
  switchCase E VUndefined (VRef 2) (VFun 3) VUndefined
    = Normal (Value VUndefined).
Proof. vm_compute. repeat split; reflexivity. Qed.

(** Where the test of every entry is falsy and a default handler is
    supplied, every branch of [switchCase] and the builder's [run] return
    what [defaultHandler(subject)] returns, and raise nothing of their
    own. *)
Theorem default_handler_used (E : host) (value : Js.value) (f : nat) :
  (forall b,
      subject b = value ->
      Forall (fun e => entry_test E value e = Normal false) (cases b) ->
      defaultFn b = VFun f ->
      run E b = (call E f VUndefined [value], b)) /\
  (forall cases a4,
      Array_isArray E cases = true ->
      Forall (fun e => element_test E value e = Normal false) (elements_of E cases) ->
      switchCase E value cases (VFun f) a4 = Value <$> call E f VUndefined [value]) /\
  (forall cases a4,
      is_mapping E cases = true ->
      Get E cases (String_ E value) = Normal VUndefined ->
      Forall (fun k => key_test E value cases k = Normal false) (Object_keys E cases) ->
      switchCase E value cases (VFun f) a4 = Value <$> call E f VUndefined [value]) /\
  (forall discriminator cases field,
      mode_of E discriminator = Discriminator ->
      Get E value (String_ E discriminator) = Normal field ->
      Get E cases (String_ E field) = Normal VUndefined ->
      switchCase E value discriminator cases (VFun f)
        = Value <$> call E f VUndefined [value]).
Proof.
  repeat split.
  - intros b <- Hc Hd. rewrite (run_exhausted E b Hc), Hd. reflexivity.
  - intros cases a4 Ha Hc. rewrite (array_exhausted E _ _ _ _ Ha Hc). reflexivity.
  - intros cases a4 Hm Hlit Hc.
    rewrite (object_exhausted E _ _ _ _ Hm Hlit Hc). reflexivity.
  - intros d cases field Hm Hf Hc.
    rewrite (discriminator_exhausted E _ _ _ _ _ Hm Hf Hc). reflexivity.
Qed.

Lemma default_handler_used_witness :
  let E := Example.node unmatched unmatched_functions in
  run E (default (VFun 3) (unmatched_builder))
    = (Normal (VStr "Invalid"), default (VFun 3) (unmatched_builder)) /\
  switchCase E (VNum (-5)) (VRef 1) (VFun 3) VUndefined
    = Normal (Value (VStr "Invalid")) /\
  switchCase E (VNum (-5)) (VRef 3) (VFun 3) VUndefined
    = Normal (Value (VStr "Invalid")) /\
  switchCase E (VRef 4) (VStr "kind") (VRef 5) (VFun 3)
    = Normal (Value (VStr "Invalid")).
Proof.
  intros E.
  destruct (default_handler_used E (VNum (-5)) 3%nat) as (Hb & Ha & Ho & _).
  destruct (default_handler_used E (VRef 4) 3%nat) as (_ & _ & _ & Hd).
  split; [|split; [|split]].
  - apply (Hb (default (VFun 3) (unmatched_builder))); try reflexivity.
    repeat constructor.
  - apply (Ha (VRef 1) VUndefined); try reflexivity. repeat constructor.
  - apply (Ho (VRef 3) VUndefined); try reflexivity. repeat constructor.
  - apply (Hd (VStr "kind") (VRef 5) (VStr "triangle")); reflexivity.
Defined.

(** ** The builder *)

(** C8: [run()] leaves the builder as it was, so a second [run()] on the
    unchanged builder returns what the first returned (the match and
    handler functions being pure, as the host's [call] is). *)
Theorem run_repeatable (E : host) (b : builder) :
  (run E b).2 = b /\ run E (run E b).2 = run E b.
Proof. split; reflexivity. Qed.

(** C9: [exhaustive()] returns exactly what [run()] returns on the same
    builder, the same failure included. *)
Theorem exhaustive_is_run (E : host) (b : builder) :
  exhaustive E b = run E b.
Proof. reflexivity. Qed.

(** [switchCase('rejected').case('pending', 1).case('fulfilled', 2)]:
    both terminal calls fail alike. *)
Example exhaustive_incomplete :
  let E := Example.node ∅ Example.no_functions in
  let b := case_ (VStr "fulfilled") (VNum 2)
             (case_ (VStr "pending") (VNum 1)
                (Builder (VNum 3) [] VUndefined)) in
  exhaustive E b = (Throw (Error "No matching case for value: 3"), b) /\
  run E b = (Throw (Error "No matching case for value: 3"), b).
Proof. vm_compute. split; reflexivity. Qed.

(** ** Entries that hold [undefined] *)

Lemma Get_own (E : host) (l : loc) (o : object) (k : string) (x : value) :
  heap E !! l = Some o -> own_property o k = Some x ->
  Get E (VRef l) k = Normal x.
Proof. intros Hl Hk. unfold Get. rewrite Hl. simpl. rewrite Hk. reflexivity. Qed.

(** C10: the code raises a [TypeError] where the claim asks for the
    default handler.  In [switchCase('a', { a: undefined }, d)] the literal
    lookup is skipped, as the claim says, but the scan that follows takes
    the entry for a predicate pair and reads [match] of [undefined]
    (line 126); the default handler is not reached.  With the key absent it
    is, and so it is in discriminator mode with the key present. *)
Lemma undefined_entry_not_absent :
  let E := Example.node undefined_entries undefined_functions in
  heap E !! 1%positive = Some (ORecord [("a", VUndefined)]) /\
  heap E !! 2%positive = Some (ORecord []) /\
  switchCase E (VRef 3) (VStr "kind") (VRef 1) (VFun 3)
    = Normal (Value (VStr "Invalid")) /\
  switchCase E (VStr "a") (VRef 1) (VFun 3) VUndefined = Throw TypeError /\
  switchCase E (VStr "a") (VRef 2) (VFun 3) VUndefined
    = Normal (Value (VStr "Invalid")) /\
  switchCase E (VStr "a") (VRef 1) VUndefined VUndefined = Throw TypeError.
Proof. vm_compute. repeat split; reflexivity. Qed.

(** A key that is present and holds [undefined] is not a literal match.
    In object-based mode the literal fast path is skipped
    and the result is that of the scan over the keys of the case set: a
    predicate entry enumerated before that key, and the first to match,
    supplies the result.  In discriminator mode the default handler, or
    else the NoMatch failure, is taken even though the key is present. *)
Theorem undefined_entry (E : host) (l : loc) (ps : list (string * Js.value)) :
  heap E !! l = Some (ORecord ps) ->
  (forall value defaultFn a4,
      lookup_prop (String_ E value) ps = Some VUndefined ->
      switchCase E value (VRef l) defaultFn a4
        = Value <$> scan_object E value (VRef l) defaultFn /\
      (forall pre k post,
          Object_keys E (VRef l) = pre ++ k :: post ->
          Forall (fun k' => key_test E value (VRef l) k' = Normal false) pre ->
          key_test E value (VRef l) k = Normal true ->
          switchCase E value (VRef l) defaultFn a4
            = Value <$> key_result E value (VRef l) k)) /\
  (forall value discriminator defaultHandler field,
      mode_of E discriminator = Discriminator ->
      Get E value (String_ E discriminator) = Normal field ->
      lookup_prop (String_ E field) ps = Some VUndefined ->
      switchCase E value discriminator (VRef l) defaultHandler
        = Value <$> (if ToBoolean defaultHandler
                     then Call E defaultHandler VUndefined [value]
                     else Throw (Error ("No matching case for "
                                          +:+ String_ E discriminator +:+ ": "
                                          +:+ String_ E field)))).
Proof.
  intros Hl. split.
  - intros value defaultFn a4 Hk.
    assert (Hget : Get E (VRef l) (String_ E value) = Normal VUndefined)
      by (eapply Get_own; [exact Hl|exact Hk]).
    assert (Hm : is_mapping E (VRef l) = true) by (simpl; by rewrite Hl).
    assert (Hscan : switchCase E value (VRef l) defaultFn a4
                    = Value <$> scan_object E value (VRef l) defaultFn).
    { rewrite switchCase_by_mode, (mapping_mode _ _ Hm).
      unfold switchCase_object. rewrite Hget. reflexivity. }
    split; [exact Hscan|].
    intros pre k post Hks Hpre Hhit. rewrite Hscan. unfold scan_object.
    rewrite Hks, (keys_for_skip _ _ _ _ _ _ Hpre).
    rewrite (keys_for_hit E value (VRef l) k _ _ Hhit). reflexivity.
  - intros value d dh field Hm Hf Hk.
    apply (discriminator_exhausted E _ _ _ _ _ Hm Hf).
    eapply Get_own; [exact Hl|exact Hk].
Qed.

Lemma undefined_entry_witness :
  let E := Example.node undefined_entries undefined_functions in
  (switchCase E (VStr "a") (VRef 4) (VFun 3) VUndefined
     = Value <$> scan_object E (VStr "a") (VRef 4) (VFun 3) /\
   switchCase E (VStr "a") (VRef 4) (VFun 3) VUndefined
     = Value <$> key_result E (VStr "a") (VRef 4) "any") /\
  switchCase E (VRef 3) (VStr "kind") (VRef 1) (VFun 3)
    = Normal (Value (VStr "Invalid")).
Proof.
  intros E. split.
  - destruct (undefined_entry E 4%positive [("any", VRef 5); ("a", VUndefined)]
                eq_refl) as [Ho _].
    destruct (Ho (VStr "a") (VFun 3) VUndefined eq_refl) as [Hscan Hfirst].
    split; [exact Hscan|].
    apply (Hfirst [] "any" ["a"]); [reflexivity|constructor|reflexivity].
  - destruct (undefined_entry E 1%positive [("a", VUndefined)] eq_refl) as [_ Hd].
    apply (Hd (VRef 3) (VStr "kind") (VFun 3) (VStr "a")); reflexivity.
Defined.

(** When no key enumerated before it matches, the scan reads [match] of
    the [undefined] entry: a [TypeError], whatever the default handler. *)
Lemma undefined_entry_reached (E : host) (l : loc) (ps : list (string * Js.value))
    (value defaultFn a4 : Js.value) (pre post : list string) :
  heap E !! l = Some (ORecord ps) ->
  lookup_prop (String_ E value) ps = Some VUndefined ->
  Object_keys E (VRef l) = pre ++ String_ E value :: post ->
  Forall (fun k => key_test E value (VRef l) k = Normal false) pre ->
  switchCase E value (VRef l) defaultFn a4 = Throw TypeError.
Proof.
  intros Hl Hk Hks Hpre.
  assert (Hget : Get E (VRef l) (String_ E value) = Normal VUndefined)
    by (eapply Get_own; [exact Hl|exact Hk]).
  assert (Hm : is_mapping E (VRef l) = true) by (simpl; by rewrite Hl).
  rewrite switchCase_by_mode, (mapping_mode _ _ Hm).
  unfold switchCase_object. rewrite Hget. simpl. unfold scan_object.
  rewrite Hks, (keys_for_skip _ _ _ _ _ _ Hpre). cbn [keys_for].
  rewrite Hget. reflexivity.
Qed.

(** ** The cycle guard *)

Import Utils.

Section CycleGuard.
Context (E : host).

Lemma for_in_total rec obj path keys st (n : nat) :
  (forall v p st1, size (unseen E st1) < n ->
     exists b st2, rec v p st1 = Some (b, st2) /\ seen st1 ⊆ seen st2)%nat ->
  (size (unseen E st) < n)%nat ->
  exists b st', for_in E rec obj path keys st = Some (b, st') /\ seen st ⊆ seen st'.
Proof.
  intros Hrec. revert st. induction keys as [|key keys IH]; intros st Hn.
  - exists false, st. split; [reflexivity|set_solver].
  - simpl. destruct (Hrec (optional_get E obj key) (path ++ [key]) st Hn)
      as (b & st1 & -> & Hsub).
    destruct b.
    + exists true, st1. split; [reflexivity|exact Hsub].
    + destruct (IH st1) as (b & st2 & -> & Hsub2).
      * eapply Nat.le_lt_trans; [|exact Hn].
        apply subseteq_size. unfold unseen. intros x Hx.
        apply elem_of_difference in Hx as [Hd Hx]. apply elem_of_difference.
        split; [exact Hd|]. intros Hin. exact (Hx (Hsub x Hin)).
      * exists b, st2. split; [reflexivity|set_solver].
Qed.

Lemma isCyclic_fuel_total (fuel : nat) :
  forall obj path st, (size (unseen E st) < fuel)%nat ->
  exists b st', isCyclic_fuel E fuel obj path st = Some (b, st') /\
                seen st ⊆ seen st'.
Proof.
  induction fuel as [|fuel IH]; intros obj path st Hn; [lia|].
  destruct obj as [| | | | | |l];
    try (exists false, st; split; [reflexivity|set_solver]).
  simpl. case_bool_decide as Hseen.
  - eexists true, _. split; [reflexivity|]. simpl. set_solver.
  - set (st1 := {| seen := {[l]} ∪ seen st; console := console st |}).
    destruct (heap E !! l) as [o|] eqn:Hl.
    + destruct (for_in_total (isCyclic_fuel E fuel) (VRef l) path
                  (own_keys o) st1 fuel IH) as (b & st2 & Hb & Hsub).
      * assert (Hlt : (size (unseen E st1) < size (unseen E st))%nat).
        { apply subset_size. unfold unseen, st1. simpl.
          apply elem_of_dom_2 in Hl.
          split.
          - intros x Hx. apply elem_of_difference in Hx as [Hd Hx].
            apply elem_of_difference. split; [exact Hd|].
            intros Hin. apply Hx, elem_of_union. right. exact Hin.
          - intros Hsub.
            assert (Hin : l ∈ dom (heap E) ∖ ({[l]} ∪ seen st))
              by (apply Hsub, elem_of_difference; split; assumption).
            apply elem_of_difference in Hin as [_ Hin].
            apply Hin, elem_of_union. left. by apply elem_of_singleton. }
        lia.
      * exists b, st2. split; [exact Hb|]. unfold st1 in Hsub. simpl in Hsub.
        set_solver.
    + exists false, st1. split; [reflexivity|]. unfold st1. simpl. set_solver.
Qed.

(** [isCyclic] returns: the bound on the depth is never reached. *)
Lemma isCyclic_total (obj : value) :
  exists b st, isCyclic E obj = Some (b, st).
Proof.
  destruct (isCyclic_fuel_total (S (size (heap E))) obj ["root"] (State ∅ []))
    as (b & st & H & _).
  - unfold unseen. simpl. rewrite difference_empty_L, size_dom. lia.
  - exists b, st. exact H.
Qed.

Lemma for_in_false rec obj path keys st st' :
  for_in E rec obj path keys st = Some (false, st') ->
  forall key, key ∈ keys ->
  exists st1 st2, rec (optional_get E obj key) (path ++ [key]) st1
                  = Some (false, st2).
Proof.
  revert st. induction keys as [|k keys IH]; intros st H key Hin.
  - by apply elem_of_nil in Hin.
  - simpl in H.
    destruct (rec (optional_get E obj k) (path ++ [k]) st)
      as [[[] st1]|] eqn:Hk; try discriminate.
    apply elem_of_cons in Hin as [->|Hin]; [eauto|].
    exact (IH st1 H key Hin).
Qed.

Lemma visits_spec_nil (st : state) : visits_spec [] st false st.
Proof.
  split; [constructor|]. split; [intros l Hl; by apply elem_of_nil in Hl|].
  simpl. by rewrite union_empty_r_L.
Qed.

Lemma for_in_spec rec (vis : value -> list loc) obj path keys :
  (forall v p s b s', rec v p s = Some (b, s') -> visits_spec (vis v) s b s') ->
  forall st b st',
    for_in E rec obj path keys st = Some (b, st') ->
    visits_spec (concat ((fun key => vis (optional_get E obj key)) <$> keys)) st b st'.
Proof.
  intros Hrec. induction keys as [|key keys IH]; intros st b st' H; simpl in H.
  - injection H as <- <-. apply visits_spec_nil.
  - rewrite fmap_cons. simpl.
    destruct (rec (optional_get E obj key) (path ++ [key]) st)
      as [[b1 st1]|] eqn:Hkey; [|discriminate].
    apply Hrec in Hkey. destruct b1.
    + injection H as <- <-. simpl in *. intros [Hnd Hfresh]. apply Hkey.
      apply NoDup_app in Hnd as (Hnd & _ & _). split; [exact Hnd|].
      intros l Hl. apply Hfresh, elem_of_app. by left.
    + destruct Hkey as (Hnd1 & Hfresh1 & Hseen1).
      apply IH in H. destruct b; simpl in *.
      * intros [Hnd Hfresh]. apply H.
        apply NoDup_app in Hnd as (_ & Hdisj & Hnd2). split; [exact Hnd2|].
        intros l Hl. rewrite Hseen1.
        intros [Hin|Hin%elem_of_list_to_set]%elem_of_union.
        -- apply (Hfresh l); [|exact Hin]. apply elem_of_app. by right.
        -- exact (Hdisj l Hin Hl).
      * destruct H as (Hnd2 & Hfresh2 & Hseen2).
        assert (Hdisj : forall l, l ∈ vis (optional_get E obj key) ->
                  l ∉ concat ((fun key0 => vis (optional_get E obj key0)) <$> keys)).
        { intros l Hl1 Hl2. apply (Hfresh2 l Hl2). rewrite Hseen1.
          apply elem_of_union. right. by apply elem_of_list_to_set. }
        split; [apply NoDup_app; auto|]. split.
        -- intros l [Hl|Hl]%elem_of_app; [by apply Hfresh1|].
           intros Hin. apply (Hfresh2 l Hl). rewrite Hseen1.
           apply elem_of_union. by left.
        -- rewrite Hseen2, Hseen1, list_to_set_app_L. by rewrite (assoc_L (∪)).
Qed.

Lemma isCyclic_fuel_spec (fuel : nat) :
  forall obj path st b st',
    isCyclic_fuel E fuel obj path st = Some (b, st') ->
    visits_spec (visits E fuel obj) st b st'.
Proof.
  induction fuel as [|fuel IH]; intros obj path st b st' H; [discriminate|].
  destruct obj as [| | | | | |l];
    try (injection H as <- <-; apply visits_spec_nil).
  simpl in H. cbn [visits]. case_bool_decide as Hseen.
  - injection H as <- <-. intros [_ Hfresh].
    apply (Hfresh l); [apply elem_of_cons; by left|exact Hseen].
  - apply (for_in_spec _ (visits E fuel) _ _ _ (IH)) in H.
    set (ls := concat _) in *. destruct b; simpl in *.
    + intros [Hnd Hfresh]. apply H.
      apply NoDup_cons in Hnd as [Hl Hnd]. split; [exact Hnd|].
      intros x Hx [->%elem_of_singleton|Hin]%elem_of_union; [exact (Hl Hx)|].
      apply (Hfresh x); [apply elem_of_cons; by right|exact Hin].
    + destruct H as (Hnd & Hfresh & Hseen').
      assert (Hl : l ∉ ls).
      { intros Hl. apply (Hfresh l Hl), elem_of_union. left.
        by apply elem_of_singleton. }
      split; [apply NoDup_cons; auto|]. split.
      * intros x [->|Hx]%elem_of_cons; [exact Hseen|].
        intros Hin. apply (Hfresh x Hx), elem_of_union. by right.
      * rewrite Hseen'. rewrite (comm_L (∪) {[l]} (seen st)).
        by rewrite (assoc_L (∪)).
Qed.

(** What [isCyclic] computes: [true] exactly when the traversal would
    enter some object twice. *)
Lemma isCyclic_spec (obj : value) (b : bool) (st : state) :
  isCyclic E obj = Some (b, st) ->
  b = true <-> ~ NoDup (visits E (S (size (heap E))) obj).
Proof.
  intros H. apply isCyclic_fuel_spec in H. destruct b; simpl in H.
  - split; [|reflexivity]. intros _ Hnd. apply H. split; [exact Hnd|].
    intros l _. apply not_elem_of_empty.
  - destruct H as (Hnd & _). split; [discriminate|]. intros Hn. by destruct Hn.
Qed.

Lemma for_in_logs rec obj path keys :
  (forall v p s b s', rec v p s = Some (b, s') -> logs_once s b s') ->
  forall st b st',
    for_in E rec obj path keys st = Some (b, st') -> logs_once st b st'.
Proof.
  intros Hrec. induction keys as [|key keys IH]; intros st b st' H; simpl in H.
  - injection H as <- <-. reflexivity.
  - destruct (rec (optional_get E obj key) (path ++ [key]) st)
      as [[b1 st1]|] eqn:Hkey; [|discriminate].
    apply Hrec in Hkey. destruct b1.
    + injection H as <- <-. exact Hkey.
    + apply IH in H. simpl in Hkey. unfold logs_once in *. by rewrite Hkey in H.
Qed.

Lemma isCyclic_fuel_logs (fuel : nat) :
  forall obj path st b st',
    isCyclic_fuel E fuel obj path st = Some (b, st') -> logs_once st b st'.
Proof.
  induction fuel as [|fuel IH]; intros obj path st b st' H; [discriminate|].
  destruct obj as [| | | | | |l]; try (injection H as <- <-; reflexivity).
  simpl in H. case_bool_decide.
  - injection H as <- <-. simpl. eauto.
  - apply (for_in_logs _ _ _ _ IH) in H. exact H.
Qed.

Lemma isCyclic_logs_once (obj : value) (b : bool) (st : state) :
  isCyclic E obj = Some (b, st) ->
  if b then exists d, console st = [d] else console st = [].
Proof. intros H. apply isCyclic_fuel_logs in H. exact H. Qed.

(** A [false] of [isCyclic] is right: no object reachable from [obj]
    is reachable from itself. *)
Lemma isCyclic_fuel_false (fuel : nat) :
  forall obj path st st',
    isCyclic_fuel E fuel obj path st = Some (false, st') ->
    forall l l', obj = VRef l -> rtc (edge E) l l' -> ~ on_cycle E l'.
Proof.
  induction fuel as [|fuel IH]; intros obj path st st' H l l' -> Hreach;
    [discriminate|].
  simpl in H. case_bool_decide; [discriminate|].
  assert (Hchild : forall l1 l2, edge E l l1 -> rtc (edge E) l1 l2 ->
                                 ~ on_cycle E l2).
  { intros l1 l2 (key & Hkey & Hval) Hr.
    destruct (for_in_false _ _ _ _ _ _ H key Hkey) as (st1 & st2 & Hrec).
    rewrite Hval in Hrec. exact (IH _ _ _ _ Hrec l1 l2 eq_refl Hr). }
  destruct Hreach as [|l l1 l' Hedge Hr]; [|exact (Hchild _ _ Hedge Hr)].
  intros Hcyc. assert (Hcyc' := Hcyc). unfold on_cycle in Hcyc.
  inversion Hcyc as [? ? Hedge|? l1 ? Hedge Htc]; subst.
  - exact (Hchild _ _ Hedge (rtc_refl _ _) Hcyc').
  - exact (Hchild _ _ Hedge (tc_rtc _ _ Htc) Hcyc').
Qed.

(** No cycle is missed: [isCyclic] returns [true] whenever some object
    reachable from [obj] is reachable from itself. *)
Lemma isCyclic_complete (obj : value) :
  cyclic E obj -> exists st, isCyclic E obj = Some (true, st).
Proof.
  intros (l & l' & -> & Hreach & Hcyc).
  destruct (isCyclic_total (VRef l)) as ([] & st & H); [eauto|].
  exfalso. exact (isCyclic_fuel_false _ _ _ _ _ H l l' eq_refl Hreach Hcyc).
Qed.

End CycleGuard.

Lemma diamond_edge (l l' : loc) :
  edge (Example.node diamond Example.no_functions) l l' ->
  l = 1%positive /\ l' = 2%positive.
Proof.
  intros (key & Hkey & Hval).
  unfold Object_keys in Hkey. unfold optional_get, Get in Hval.
  cbn [heap Example.node] in Hkey, Hval. unfold diamond in Hkey, Hval.
  destruct (decide (l = 1%positive)) as [->|H1].
  - split; [reflexivity|].
    rewrite lookup_insert_eq in Hkey. change (key ∈ ["a"; "b"]) in Hkey.
    apply elem_of_cons in Hkey as [->|Hkey];
      [vm_compute in Hval; congruence|].
    apply elem_of_cons in Hkey as [->|Hkey];
      [vm_compute in Hval; congruence|].
    by apply elem_of_nil in Hkey.
  - rewrite lookup_insert_ne in Hkey by congruence.
    destruct (decide (l = 2%positive)) as [->|H2].
    + rewrite lookup_singleton_eq in Hkey. by apply elem_of_nil in Hkey.
    + rewrite lookup_singleton_ne in Hkey by congruence.
      by apply elem_of_nil in Hkey.
Qed.

(** C4: the code returns [true] for a diamond.  In
    [const shared = {}; isCyclic({ a: shared, b: shared })] no object is
    reachable from itself, so the claim asks for [false]; the code finds
    [shared] in [seen] when it reaches it through [b], logs
    [Cycle detected] at [root -> b] and returns [true]. *)
Theorem isCyclic_diamond :
  let E := Example.node diamond Example.no_functions in
  (forall l, ~ on_cycle E l) /\
  ~ cyclic E (VRef 1) /\
  fst <$> isCyclic E (VRef 1) = Some true /\
  (fun r => console r.2) <$> isCyclic E (VRef 1)
    = Some [Diagnostic "Cycle detected" "root -> b" (VStr "Object")].
Proof.
  intros E.
  assert (Hno : forall l, ~ on_cycle E l).
  { intros l Hc. unfold on_cycle in Hc.
    inversion Hc as [? ? Hedge|? y ? Hedge Htc]; subst.
    - apply diamond_edge in Hedge as [? ?]. congruence.
    - apply diamond_edge in Hedge as [-> ->].
      inversion Htc as [? ? Hedge|? z ? Hedge _]; subst;
        apply diamond_edge in Hedge as [? ?]; congruence. }
  split; [exact Hno|]. split.
  - intros (l & l' & _ & _ & Hc). exact (Hno l' Hc).
  - split; vm_compute; reflexivity.
Qed.

Example isCyclic_test :
  let E := Example.node test_objects Example.no_functions in
  fst <$> isCyclic E (VRef 1) = Some true /\
  fst <$> isCyclic E (VRef 2) = Some false.
Proof. vm_compute. split; reflexivity. Qed.

(** * Further properties of the dispatcher *)


(** ** The builder *)

(** X1: after any chain of [case] and [default] calls the builder holds
    the subject it was made for, the entries of the [case] calls in the
    order of the calls, after those it had, and the handler of the last
    [default] call. *)
Theorem chain_normal_form (b : builder) (cs : list method) :
  chain b cs =
    Builder (subject b) (cases b ++ entries_of cs) (last_default (defaultFn b) cs).
Proof.
  revert b. induction cs as [|c cs IH]; intros b.
  - destruct b. simpl. by rewrite app_nil_r.
  - unfold chain in *. cbn [foldl]. rewrite IH.
    destruct c as [m h|h]; simpl; [|reflexivity].
    unfold entries_of. cbn [omap]. by rewrite <- app_assoc.
Qed.

Lemma run_result (E : host) (b : builder) :
  (run E b).1 = run_for E (subject b) (cases b) (otherwise E (defaultFn b) (subject b)).
Proof. reflexivity. Qed.

(** X2: [run] returns at the first entry that matches: neither a case
    added later nor the default handler, whichever it is, changes the
    result. *)
Theorem run_first_case (E : host) (b : builder) (pre post : list entry)
    (e : entry) (m h d : Js.value) :
  cases b = pre ++ e :: post ->
  Forall (fun e' => entry_test E (subject b) e' = Normal false) pre ->
  entry_test E (subject b) e = Normal true ->
  (run E b).1 = resolve E (handler e) VUndefined (subject b) /\
  (run E (case_ m h b)).1 = (run E b).1 /\
  (run E (default d b)).1 = (run E b).1.
Proof.
  intros Hcs Hpre Hhit. rewrite !run_result. simpl. rewrite Hcs.
  rewrite <- app_assoc, <- app_comm_cons.
  rewrite !(run_for_skip E _ _ _ _ Hpre), !(run_for_hit E _ _ _ _ Hhit). auto.
Qed.

Lemma run_first_case_witness :
  let E := Example.node ∅ successor in
  (run E literal_builder).1 = resolve E (VFun 2) VUndefined (VNum 3) /\
  (run E (case_ (VNum 3) (VStr "late") literal_builder)).1 = (run E literal_builder).1 /\
  (run E (default (VFun 7) literal_builder)).1 = (run E literal_builder).1.
Proof.
  intros E.
  apply (run_first_case E literal_builder [Entry (VNum 1) (VStr "one")]
           [Entry (VNum 3) (VStr "again")] (Entry (VNum 3) (VFun 2))
           (VNum 3) (VStr "late") (VFun 7)).
  - reflexivity.
  - constructor; [reflexivity|constructor].
  - reflexivity.
Defined.

(** X3: a case added to a builder none of whose entries matches is the
    one that decides: its handler is resolved when its test is truthy, and
    the result is that of the builder without it when its test is falsy. *)
Theorem run_appended_case (E : host) (b : builder) (m h : Js.value) (t : bool) :
  Forall (fun e => entry_test E (subject b) e = Normal false) (cases b) ->
  entry_test E (subject b) (Entry m h) = Normal t ->
  (run E (case_ m h b)).1 =
    if t then resolve E h VUndefined (subject b) else (run E b).1.
Proof.
  intros Hcs Ht. rewrite !run_result. simpl.
  rewrite (run_for_skip E _ _ _ _ Hcs), (run_for_none E _ _ _ Hcs).
  destruct t.
  - exact (run_for_hit E _ (Entry m h) [] _ Ht).
  - exact (run_for_none E _ [Entry m h] _ (Forall_cons_2 _ _ _ Ht (Forall_nil_2 _))).
Qed.

Lemma run_appended_case_witness :
  let E := Example.node unmatched unmatched_functions in
  (run E (case_ (VNum (-5)) (VStr "minus five") unmatched_builder)).1 =
    (if true then resolve E (VStr "minus five") VUndefined (subject unmatched_builder)
     else (run E unmatched_builder).1).
Proof.
  intros E.
  apply (run_appended_case E unmatched_builder (VNum (-5)) (VStr "minus five") true).
  - repeat constructor.
  - reflexivity.
Defined.

(** X4: when no [match] of the builder is callable, [run] resolves the
    handler of the first entry whose [match] is the subject ([===]: the
    number [404] is not the string ['404']), and goes to the default
    handler or the throw when there is none. *)
Theorem run_literal_cases (E : host) (b : builder) :
  Forall (fun e => is_function (match_ e) = false) (cases b) ->
  (run E b).1 =
    match head (filter (fun e => match_ e = subject b) (cases b)) with
    | Some e => resolve E (handler e) VUndefined (subject b)
    | None => otherwise E (defaultFn b) (subject b)
    end.
Proof.
  rewrite run_result. generalize (otherwise E (defaultFn b) (subject b)).
  generalize (subject b). intros v after.
  induction 1 as [|[m h] cs Hm _ IH]; [reflexivity|].
  simpl in Hm. cbn [run_for]. rewrite Hm. simpl. unfold strict_eq.
  case_bool_decide as Heq.
  - rewrite filter_cons_True by exact Heq. reflexivity.
  - rewrite filter_cons_False by exact Heq. exact IH.
Qed.

Lemma run_literal_cases_witness :
  let E := Example.node ∅ successor in
  (run E literal_builder).1 = Normal (VNum 4).
Proof.
  intros E.
  rewrite (run_literal_cases E literal_builder); [reflexivity|].
  repeat constructor.
Defined.

(** ** The discriminator branch *)

(** X5: in discriminator mode an entry other than [undefined] under the
    stringified field of the subject decides: a function is called with
    the whole subject, anything else is returned as it is; the default
    handler is not looked at. *)
Theorem discriminated_hit (E : host)
    (value discriminator cases defaultHandler field handlerOrValue : Js.value) :
  mode_of E discriminator = Discriminator ->
  Get E value (String_ E discriminator) = Normal field ->
  Get E cases (String_ E field) = Normal handlerOrValue ->
  handlerOrValue <> VUndefined ->
  switchCase E value discriminator cases defaultHandler
    = Value <$> resolve E handlerOrValue VUndefined value.
Proof.
  intros Hm Hf Hc Hu. rewrite switchCase_by_mode, Hm.
  unfold switchCase_discriminated. rewrite Hf. simpl. rewrite Hc. simpl.
  unfold strict_eq. rewrite bool_decide_eq_false_2 by exact Hu. reflexivity.
Qed.

Lemma discriminated_hit_witness :
  let E := Example.node shapes Example.no_functions in
  switchCase E (VRef 1) (VStr "kind") (VRef 2) (VFun 9)
    = Value <$> resolve E (VStr "Circle") VUndefined (VRef 1).
Proof.
  intros E.
  apply (discriminated_hit E (VRef 1) (VStr "kind") (VRef 2) (VFun 9)
           (VStr "circle") (VStr "Circle")); try reflexivity.
  discriminate.
Defined.

(** X6: in discriminator mode the default handler does not cover a
    subject or a case set that is [undefined] or [null]: reading the field
    of such a subject, or an entry of such a case set, raises a
    [TypeError]. *)
Theorem discriminated_nullish (E : host)
    (value discriminator cases defaultHandler : Js.value) :
  mode_of E discriminator = Discriminator ->
  (value = VUndefined \/ value = VNull ->
   switchCase E value discriminator cases defaultHandler = Throw TypeError) /\
  (cases = VUndefined \/ cases = VNull ->
   forall field, Get E value (String_ E discriminator) = Normal field ->
   switchCase E value discriminator cases defaultHandler = Throw TypeError).
Proof.
  intros Hm. rewrite switchCase_by_mode, Hm. unfold switchCase_discriminated.
  split.
  - intros [->| ->]; reflexivity.
  - intros Hc field ->. destruct Hc as [->| ->]; reflexivity.
Qed.

Lemma discriminated_nullish_witness :
  let E := Example.node shapes unmatched_functions in
  switchCase E VNull (VStr "kind") (VRef 2) (VFun 3) = Throw TypeError /\
  switchCase E (VRef 1) (VStr "kind") VUndefined (VFun 3) = Throw TypeError.
Proof.
  intros E. split.
  - apply (discriminated_nullish E VNull (VStr "kind") (VRef 2) (VFun 3));
      [reflexivity|by right].
  - apply (proj2 (discriminated_nullish E (VRef 1) (VStr "kind") VUndefined (VFun 3)
                    eq_refl) (or_introl eq_refl) (VStr "circle")).
    reflexivity.
Defined.

(** ** The default handler *)

(** X7: the default handler is tested for truthiness only: a falsy one
    ([null], [0], [''], [false]) is the same as none, in the three direct
    branches and in the builder. *)
Theorem falsy_default_is_none (E : host) (value a2 a3 d : Js.value) (b : builder) :
  ToBoolean d = false ->
  (mode_of E a2 = Sequence \/ mode_of E a2 = ObjectMap ->
   forall a4, switchCase E value a2 d a4 = switchCase E value a2 VUndefined a4) /\
  (mode_of E a2 = Discriminator ->
   switchCase E value a2 a3 d = switchCase E value a2 a3 VUndefined) /\
  (run E (default d b)).1 = (run E (default VUndefined b)).1.
Proof.
  intros Hd. split; [|split].
  - intros Hm a4. rewrite !switchCase_by_mode.
    destruct Hm as [-> | ->].
    + unfold switchCase_array. by rewrite Hd.
    + unfold switchCase_object, scan_object. by rewrite Hd.
  - intros Hm. rewrite !switchCase_by_mode, Hm.
    unfold switchCase_discriminated. by rewrite Hd.
  - rewrite !run_result. simpl. unfold otherwise. by rewrite Hd.
Qed.

Lemma falsy_default_is_none_witness :
  let E := Example.node unmatched unmatched_functions in
  switchCase E (VNum (-5)) (VRef 1) VNull VUndefined
    = switchCase E (VNum (-5)) (VRef 1) VUndefined VUndefined /\
  switchCase E (VRef 4) (VStr "kind") (VRef 5) (VNum 0)
    = switchCase E (VRef 4) (VStr "kind") (VRef 5) VUndefined.
Proof.
  intros E. split.
  - apply (proj1 (falsy_default_is_none E (VNum (-5)) (VRef 1) VUndefined VNull
                    unmatched_builder eq_refl)).
    by left.
  - apply (proj1 (proj2 (falsy_default_is_none E (VRef 4) (VStr "kind") (VRef 5)
                           (VNum 0) unmatched_builder eq_refl))).
    reflexivity.
Defined.

(** X8: a default handler that is truthy but not callable is called all
    the same: when no case matches, the direct branches and [run] raise a
    [TypeError], not the NoMatch failure. *)
Theorem default_not_callable (E : host) (value d : Js.value) :
  ToBoolean d = true ->
  is_function d = false ->
  (forall b,
      subject b = value ->
      Forall (fun e => entry_test E value e = Normal false) (cases b) ->
      defaultFn b = d ->
      (run E b).1 = Throw TypeError) /\
  (forall cases a4,
      Array_isArray E cases = true ->
      Forall (fun e => element_test E value e = Normal false) (elements_of E cases) ->
      switchCase E value cases d a4 = Throw TypeError) /\
  (forall cases a4,
      is_mapping E cases = true ->
      Get E cases (String_ E value) = Normal VUndefined ->
      Forall (fun k => key_test E value cases k = Normal false) (Object_keys E cases) ->
      switchCase E value cases d a4 = Throw TypeError) /\
  (forall discriminator cases field,
      mode_of E discriminator = Discriminator ->
      Get E value (String_ E discriminator) = Normal field ->
      Get E cases (String_ E field) = Normal VUndefined ->
      switchCase E value discriminator cases d = Throw TypeError).
Proof.
  intros Ht Hf.
  assert (Hcall : Call E d VUndefined [value] = Throw TypeError)
    by (destruct d; try reflexivity; discriminate).
  split; [|split; [|split]].
  - intros b <- Hc Hd. rewrite (run_exhausted E b Hc), Hd. simpl.
    by rewrite Ht, Hcall.
  - intros cases a4 Ha Hc. rewrite (array_exhausted E _ _ _ _ Ha Hc).
    by rewrite Ht, Hcall.
  - intros cases a4 Hm Hlit Hc. rewrite (object_exhausted E _ _ _ _ Hm Hlit Hc).
    by rewrite Ht, Hcall.
  - intros disc cases field Hm Hfd Hc.
    rewrite (discriminator_exhausted E _ _ _ _ _ Hm Hfd Hc).
    by rewrite Ht, Hcall.
Qed.

Lemma default_not_callable_witness :
  let E := Example.node unmatched unmatched_functions in
  switchCase E (VNum (-5)) (VRef 3) (VStr "F") VUndefined = Throw TypeError /\
  switchCase E (VNum (-5)) (VRef 1) (VRef 5) VUndefined = Throw TypeError.
Proof.
  intros E.
  destruct (default_not_callable E (VNum (-5)) (VStr "F") eq_refl eq_refl)
    as (_ & _ & Ho & _).
  destruct (default_not_callable E (VNum (-5)) (VRef 5) eq_refl eq_refl)
    as (_ & Ha & _ & _).
  split.
  - apply (Ho (VRef 3) VUndefined); try reflexivity. repeat constructor.
  - apply (Ha (VRef 1) VUndefined); try reflexivity. repeat constructor.
Defined.

(** ** The object branch *)



(** X10: the literal lookup sees the subject through [String] only: two
    subjects with the same string, as [404] and ['404'], get the same
    result from the same map whenever the map holds an entry under that
    string, whatever the default handlers. *)
Theorem literal_lookup_by_string (E : host)
    (value value' cases d d' a4 a4' literalHandler : Js.value) :
  is_mapping E cases = true ->
  String_ E value = String_ E value' ->
  Get E cases (String_ E value) = Normal literalHandler ->
  literalHandler <> VUndefined ->
  switchCase E value cases d a4 = switchCase E value' cases d' a4'.
Proof.
  intros Hm Hs Hg Hu. rewrite !switchCase_by_mode, (mapping_mode _ _ Hm).
  unfold switchCase_object. rewrite <- Hs, Hg. simpl.
  unfold strict_eq. rewrite bool_decide_eq_false_2 by exact Hu. reflexivity.
Qed.

Lemma literal_lookup_by_string_witness :
  let E := Example.node http_status Example.no_functions in
  switchCase E (VNum 404) (VRef 1) VUndefined VUndefined
    = switchCase E (VStr "404") (VRef 1) (VFun 5) VUndefined.
Proof.
  intros E.
  apply (literal_lookup_by_string E (VNum 404) (VStr "404") (VRef 1)
           VUndefined (VFun 5) VUndefined VUndefined (VStr "Not Found"));
    try reflexivity.
  discriminate.
Defined.

(** ** Failures of the callbacks *)

Section Failures.
Context (E : host).




End Failures.



(** ** The two syntaxes *)

(** X17: the chainable and the array-based syntax agree on predicates:
    an array of [{ match, handler }] objects whose [match] is callable gives
    what [run] gives on a builder holding the same entries in the same
    order and the same default handler. *)
Theorem sequence_is_builder (E : host) (value cases defaultFn a4 : Js.value)
    (es : list entry) :
  Array_isArray E cases = true ->
  Forall2 (fun e v => Get E v "match" = Normal (match_ e) /\
                      Get E v "handler" = Normal (handler e) /\
                      is_function (match_ e) = true)
          es (elements_of E cases) ->
  switchCase E value cases defaultFn a4
    = Value <$> (run E (Builder value es defaultFn)).1.
Proof.
  intros Ha Hes. rewrite switchCase_by_mode, (array_mode _ _ Ha).
  unfold switchCase_array. rewrite run_result. cbn [subject SwitchCase.cases SwitchCase.defaultFn].
  f_equal. unfold otherwise.
  induction Hes as [|[m h] v es vs (Hm & Hh & Hf) _ IH]; [reflexivity|].
  simpl in Hm, Hh, Hf. cbn [array_for run_for].
  rewrite Hm. simpl. rewrite Hh. simpl. rewrite Hf.
  destruct (Call E m VUndefined [value]) as [r|x]; [|reflexivity]. simpl.
  destruct (ToBoolean r); [reflexivity|exact IH].
Qed.

Lemma sequence_is_builder_witness :
  let E := Example.node broad_then_narrow sign_functions in
  switchCase E (VNum 42) (VRef 1) VUndefined VUndefined
    = Value <$> (run E (Builder (VNum 42)
                          [Entry (VFun 2) (VStr "None");
                           Entry (VFun 3) (VStr "Positive");
                           Entry (VFun 4) (VStr "Above ten")] VUndefined)).1.
Proof.
  intros E. apply sequence_is_builder; [reflexivity|].
  repeat (constructor; [repeat split; reflexivity|]). constructor.
Defined.

(** ** A missing case set *)

(** X18: a second argument that is [undefined] makes the call a builder
    call, whatever else is passed: the third and fourth arguments are
    dropped, and [run] on the builder returned fails with NoMatch; a second
    argument that is [null] is taken for a case set and raises a
    [TypeError]. *)
Theorem missing_case_set (E : host) (value a3 a4 j : Js.value) :
  JSON_stringify E value = Normal j ->
  exists b,
    switchCase E value VUndefined a3 a4 = Normal (Chain b) /\
    (run E b).1 = Throw (Error ("No matching case for value: " +:+ String_ E j)) /\
    switchCase E value VNull a3 a4 = Throw TypeError.
Proof.
  intros Hj. eexists. split; [reflexivity|]. split; [|reflexivity].
  rewrite run_result. simpl. unfold otherwise, throw_no_match. simpl.
  by rewrite Hj.
Qed.

Lemma missing_case_set_witness :
  let E := Example.node http_status Example.no_functions in
  exists b,
    switchCase E (VNum 404) VUndefined (VRef 1) VUndefined = Normal (Chain b) /\
    (run E b).1 = Throw (Error "No matching case for value: 404") /\
    switchCase E (VNum 404) VNull (VRef 1) VUndefined = Throw TypeError.
Proof.
  intros E.
  exact (missing_case_set E (VNum 404) (VRef 1) VUndefined (VStr "404") eq_refl).
Defined.

(** * Further properties of the cycle guard *)

Section CycleGuardPaths.
Context (E : host).

Lemma elem_of_concat {A} (x : A) (ls : list (list A)) :
  x ∈ concat ls -> exists l, x ∈ l /\ l ∈ ls.
Proof.
  induction ls as [|l ls IH]; simpl; [intros H; by apply elem_of_nil in H|].
  intros [H|H]%elem_of_app.
  - exists l. split; [exact H|]. apply elem_of_cons. by left.
  - destruct (IH H) as (l' & Hx & Hl'). exists l'. split; [exact Hx|].
    apply elem_of_cons. by right.
Qed.

Lemma visits_follow (fuel : nat) :
  forall obj l, l ∈ visits E fuel obj -> exists ks, follow E obj ks = VRef l.
Proof.
  induction fuel as [|fuel IH]; intros obj l Hl; [by apply elem_of_nil in Hl|].
  destruct obj as [| | | | | |l0]; try by apply elem_of_nil in Hl.
  cbn [visits] in Hl. apply elem_of_cons in Hl as [->|Hl]; [by exists []|].
  apply elem_of_concat in Hl as (ls & Hl & Hls).
  apply list_elem_of_fmap in Hls as (key & -> & _).
  destruct (IH _ _ Hl) as (ks & Hks). by exists (key :: ks).
Qed.

Lemma for_in_reports rec (vis : value -> list loc) obj l0 path st_init :
  obj = VRef l0 ->
  (forall v p s s', rec v p s = Some (true, s') -> reports E v p s s') ->
  (forall v p s s', rec v p s = Some (false, s') ->
     console s' = console s /\ seen s' = seen s ∪ list_to_set (vis v)) ->
  (forall v l, l ∈ vis v -> exists ks, follow E v ks = VRef l) ->
  forall keys done st st',
    NoDup (done ++ keys) ->
    console st = console st_init ->
    (forall l, l ∈ seen st ->
       l ∈ seen st_init \/ l = l0 \/
       exists k' ks, k' ∈ done /\ follow E (optional_get E obj k') ks = VRef l) ->
    for_in E rec obj path keys st = Some (true, st') ->
    exists k ks l st0,
      follow E (optional_get E obj k) ks = VRef l /\
      st' = logCyclicError E (VRef l) (path ++ k :: ks) "Cycle detected" st0 /\
      console st0 = console st_init /\
      (l ∈ seen st_init \/ l = l0 \/
       exists k' ks', k' :: ks' <> k :: ks /\
                      follow E (optional_get E obj k') ks' = VRef l).
Proof.
  intros Hobj Ht Hf Hvis.
  induction keys as [|k keys IH]; intros done st st' Hnd Hcon Hinv H;
    [discriminate|].
  simpl in H.
  destruct (rec (optional_get E obj k) (path ++ [k]) st)
    as [[[] st1]|] eqn:Hk; [| |discriminate].
  - injection H as <-.
    destruct (Ht _ _ _ _ Hk) as (ks & l & st0 & Hks & Hst & Hc0 & Hl).
    exists k, ks, l, st0. split; [exact Hks|]. split.
    { rewrite Hst. by rewrite <- app_assoc. }
    split; [by rewrite Hc0|].
    destruct Hl as [Hl|(ks' & Hne & Hks')].
    + destruct (Hinv l Hl) as [?|[?|(k' & ks' & Hk' & Hks')]]; [by left|by right; left|].
      right; right. exists k', ks'. split; [|exact Hks'].
      intros [= -> _]. apply NoDup_app in Hnd as (_ & Hnd & _).
      apply (Hnd k Hk'). apply elem_of_cons. by left.
    + right; right. exists k, ks'. split; [congruence|exact Hks'].
  - destruct (Hf _ _ _ _ Hk) as (Hc1 & Hs1).
    apply (IH (done ++ [k]) st1 st'); [|congruence| |exact H].
    + by rewrite <- app_assoc.
    + intros l Hl. rewrite Hs1 in Hl.
      apply elem_of_union in Hl as [Hl|Hl%elem_of_list_to_set].
      * destruct (Hinv l Hl) as [?|[?|(k' & ks' & Hk' & Hks')]]; [by left|by right; left|].
        right; right. exists k', ks'. split; [|exact Hks'].
        apply elem_of_app. by left.
      * destruct (Hvis _ _ Hl) as (ks & Hks).
        right; right. exists k, ks. split; [|exact Hks].
        apply elem_of_app. right. apply elem_of_cons. by left.
Qed.

Lemma isCyclic_fuel_reports (fuel : nat) :
  distinct_keys E ->
  forall obj path st st',
    isCyclic_fuel E fuel obj path st = Some (true, st') ->
    reports E obj path st st'.
Proof.
  intros Hwf. induction fuel as [|fuel IH]; intros obj path st st' H;
    [discriminate|].
  destruct obj as [| | | | | |l0]; try discriminate.
  simpl in H. case_bool_decide as Hseen.
  - injection H as <-. exists [], l0, st. rewrite app_nil_r. auto.
  - assert (Hnd : NoDup ([] ++ Object_keys E (VRef l0))).
    { simpl. destruct (heap E !! l0) as [o|] eqn:Hl; [|constructor].
      exact (Hwf l0 o Hl). }
    assert (Hf : forall v p s s', isCyclic_fuel E fuel v p s = Some (false, s') ->
              console s' = console s /\
              seen s' = seen s ∪ list_to_set (visits E fuel v)).
    { intros v p s s' Hv. split.
      - exact (isCyclic_fuel_logs E fuel _ _ _ _ _ Hv).
      - apply isCyclic_fuel_spec in Hv. apply Hv. }
    set (st1 := {| seen := {[l0]} ∪ seen st; console := console st |}) in *.
    assert (Hinv : forall l, l ∈ seen st1 ->
              l ∈ seen st \/ l = l0 \/
              exists k' ks, k' ∈ @nil string /\
                follow E (optional_get E (VRef l0) k') ks = VRef l).
    { simpl. intros l [->%elem_of_singleton|Hl]%elem_of_union; auto. }
    destruct (for_in_reports (isCyclic_fuel E fuel) (visits E fuel) (VRef l0) l0
                path st eq_refl IH Hf (visits_follow fuel)
                (Object_keys E (VRef l0)) [] st1 st' Hnd eq_refl Hinv H)
      as (k & ks & l & st0 & Hks & Hst & Hc0 & Hl).
    exists (k :: ks), l, st0. split; [exact Hks|]. split; [exact Hst|].
    split; [exact Hc0|].
    destruct Hl as [?|[->|(k' & ks' & Hne & Hks')]]; [by left| |].
    + right. by exists [].
    + right. by exists (k' :: ks').
Qed.

End CycleGuardPaths.

Lemma unseen_bound (E : host) (st : state) :
  (size (unseen E st) < S (size (heap E)))%nat.
Proof.
  unfold unseen. rewrite <- size_dom.
  apply Nat.lt_succ_r, subseteq_size. intros x Hx.
  by apply elem_of_difference in Hx as [Hx _].
Qed.

(** X12: [isCyclic] returns on every store, cyclic or not, for every
    [seen] and [path] it is started with: the recursion enters each stored
    object at most once.  It only adds to [seen], and writes one diagnostic
    when it returns [true] and none when it returns [false]. *)
Theorem isCyclic_from_returns (E : host) (obj : value) (path : list string)
    (st : state) :
  exists b st', isCyclic_from E obj path st = Some (b, st') /\
                seen st ⊆ seen st' /\ logs_once st b st'.
Proof.
  destruct (isCyclic_fuel_total E (S (size (heap E))) obj path st)
    as (b & st' & H & Hsub).
  - apply unseen_bound.
  - exists b, st'. split; [exact H|]. split; [exact Hsub|].
    exact (isCyclic_fuel_logs E _ _ _ _ _ _ H).
Qed.

(** X13: a [seen] set cannot be used again: after [isCyclic] has
    returned [false] for an object, a second call on that object with the
    set the first call left returns [true] and writes its diagnostic. *)
Theorem seen_not_reusable (E : host) (l : loc) (path path' : list string)
    (st st' : state) :
  isCyclic_from E (VRef l) path st = Some (false, st') ->
  isCyclic_from E (VRef l) path' st'
    = Some (true, logCyclicError E (VRef l) path' "Cycle detected" st').
Proof.
  intros H. apply isCyclic_fuel_spec in H. destruct H as (_ & _ & Hseen).
  unfold isCyclic_from. cbn [isCyclic_fuel].
  rewrite bool_decide_eq_true_2; [reflexivity|].
  rewrite Hseen. apply elem_of_union. right. apply elem_of_list_to_set.
  cbn [visits]. apply elem_of_cons. by left.
Qed.

Lemma seen_not_reusable_witness :
  let E := Example.node test_objects Example.no_functions in
  exists st', isCyclic E (VRef 2) = Some (false, st') /\
              isCyclic_from E (VRef 2) ["root"] st'
                = Some (true, logCyclicError E (VRef 2) ["root"] "Cycle detected" st').
Proof.
  intros E. destruct (isCyclic E (VRef 2)) as [[b st']|] eqn:H.
  - assert (Hb : fst <$> isCyclic E (VRef 2) = Some false) by (vm_compute; reflexivity).
    rewrite H in Hb. injection Hb as ->.
    exists st'. split; [reflexivity|].
    exact (seen_not_reusable E 2%positive ["root"] ["root"] (State ∅ []) st' H).
  - exfalso. destruct (isCyclic_total E (VRef 2)) as (b & st' & H').
    rewrite H in H'. discriminate.
Defined.

(** X14: [true] means that some object was reached twice: when the keys
    of each stored object are distinct and [isCyclic(obj)] returns [true],
    two different paths of keys lead from [obj] to one object, and the
    diagnostic written is that of this object at one of the two paths,
    after [root]. *)
Theorem isCyclic_true_two_paths (E : host) (obj : value) (st : state) :
  distinct_keys E ->
  isCyclic E obj = Some (true, st) ->
  exists ks ks' l,
    ks <> ks' /\ follow E obj ks = VRef l /\ follow E obj ks' = VRef l /\
    console st
      = console (logCyclicError E (VRef l) ("root" :: ks) "Cycle detected"
                   (State ∅ [])).
Proof.
  intros Hwf H. apply (isCyclic_fuel_reports E _ Hwf) in H.
  destruct H as (ks & l & st0 & Hks & -> & Hc0 & [Hl|(ks' & Hne & Hks')]).
  - by apply not_elem_of_empty in Hl.
  - exists ks, ks', l. split; [congruence|]. split; [exact Hks|].
    split; [exact Hks'|]. simpl in *. by rewrite Hc0.
Qed.

Lemma diamond_distinct_keys :
  distinct_keys (Example.node diamond Example.no_functions).
Proof. unfold distinct_keys. apply (bool_decide_unpack _). vm_compute. exact I. Qed.

Lemma isCyclic_true_two_paths_witness :
  let E := Example.node diamond Example.no_functions in
  exists st ks ks' l,
    isCyclic E (VRef 1) = Some (true, st) /\
    ks <> ks' /\ follow E (VRef 1) ks = VRef l /\ follow E (VRef 1) ks' = VRef l /\
    console st
      = console (logCyclicError E (VRef l) ("root" :: ks) "Cycle detected"
                   (State ∅ [])).
Proof.
  intros E. destruct (isCyclic E (VRef 1)) as [[b st]|] eqn:H.
  - assert (Hb : fst <$> isCyclic E (VRef 1) = Some true) by (vm_compute; reflexivity).
    rewrite H in Hb. injection Hb as ->.
    destruct (isCyclic_true_two_paths E (VRef 1) st diamond_distinct_keys H)
      as (ks & ks' & l & Hp).
    exists st, ks, ks', l. split; [reflexivity|exact Hp].
  - exfalso. destruct (isCyclic_total E (VRef 1)) as (b & st' & H').
    rewrite H in H'. discriminate.
Defined.

(** X15: no cycle of objects and arrays is missed, whatever [seen] and
    [path] the call is started with: when some object or array reachable
    from [obj] through properties of objects and arrays is reachable from
    itself that way, [isCyclic] returns [true].  ([isCyclic] does not enter
    a function, so it does not see a cycle that only closes through the
    properties of one.) *)
Theorem cycle_never_missed (E : host) (obj : value) (path : list string)
    (st : state) :
  cyclic E obj -> exists st', isCyclic_from E obj path st = Some (true, st').
Proof.
  intros (l & l' & -> & Hreach & Hcyc).
  destruct (isCyclic_fuel_total E (S (size (heap E))) (VRef l) path st)
    as ([] & st' & H & _).
  - apply unseen_bound.
  - by exists st'.
  - exfalso. exact (isCyclic_fuel_false E _ _ _ _ _ H l l' eq_refl Hreach Hcyc).
Qed.

Lemma cycle_never_missed_witness :
  let E := Example.node test_objects Example.no_functions in
  exists st', isCyclic_from E (VRef 1) ["root"] (State ∅ []) = Some (true, st').
Proof.
  intros E. apply (cycle_never_missed E (VRef 1)).
  assert (Hedge : edge E 1%positive 1%positive).
  { exists "self". split; [|reflexivity].
    change (Object_keys E (VRef 1)) with ["id"; "self"].
    apply elem_of_cons. right. apply elem_of_cons. by left. }
  exists 1%positive, 1%positive. split; [reflexivity|].
  split; [apply rtc_refl|]. apply tc_once, Hedge.
Defined.



(** X19: [logCyclicError] does not fail on [null] or [undefined]: it
    writes one record after those of the console, with the path joined by
    [ -> ] and ['unknown'] as object type, and leaves [seen] alone. *)
Theorem logCyclicError_nullish (E : host) (obj : value) (path : list string)
    (context : string) (st : state) :
  obj = VNull \/ obj = VUndefined ->
  logCyclicError E obj path context st
    = {| seen := seen st;
         console := console st ++
           [Diagnostic context (join " -> " path) (VStr "unknown")] |}.
Proof. intros [-> | ->]; reflexivity. Qed.

Lemma logCyclicError_nullish_witness :
  logCyclicError (Example.node ∅ Example.no_functions) VNull ["root"; "self"]
    "Test" (State ∅ [])
  = {| seen := ∅;
       console := [Diagnostic "Test" "root -> self" (VStr "unknown")] |}.
Proof.
  exact (logCyclicError_nullish (Example.node ∅ Example.no_functions) VNull
           ["root"; "self"] "Test" (State ∅ []) (or_introl eq_refl)).
Defined.

(** The call of the test, [assertUnreachable('something')]. *)
Example assertUnreachable_test :
  assertUnreachable (Example.node ∅ Example.no_functions) (VStr "something")
    = Throw (Error "Unreachable case: something").
Proof. reflexivity. Qed.
